(** * The S3/SQS ingress (internal/ingress/s3sqs/s3sqs.go)

    A shallow embedding of the [Ingress] type and of its methods [Range],
    [drain], [acknowledge], [ingest] and [Close].

    The goroutines of the package are modelled as threads with a program
    counter.  A thread step runs the goroutine from one synchronisation
    point to the next (channel select, semaphore acquire or release,
    goroutine start, object download, handler call); the calls it makes on
    its collaborators on the way (queue, downloader, monitor, semaphore) are
    the actions of the step, in program order.  A schedule is a list of
    labels: which thread moves and what its blocking call returned.  The
    queue, the downloader and the handler are the environment: a schedule
    may deliver any message, let a delete or a download fail, and interleave
    the threads in any way. *)

From Stdlib Require Import ZArith Ascii String Lia.
From Stdlib.Strings Require Import Byte.
From stdpp Require Import base option list strings.

(** ** Errors *)

(** The errors the package sees: those its collaborators return, taken as
    they come; the one of [url.QueryUnescape]; and [errors.Internal(msg,
    cause)] of the monitor/errors package, of which only the wrapping of
    message and cause is kept. *)
Inductive error :=
| ErrOpaque (msg : string)
| EscapeError (frag : string)
| Internal (msg : string) (cause : error).

(** ** net/url.QueryUnescape

    The key of a record goes through Go's [url.QueryUnescape], that is
    [unescape(s, encodeQueryComponent)]: a first pass counts the '%' and checks
    that two hexadecimal digits follow each of them, a second pass rewrites
    the string. *)
Module url.

Definition in_range (lo hi : N) (c : ascii) : bool :=
  ((lo <=? N_of_ascii c) && (N_of_ascii c <=? hi))%N.

Definition ishex (c : ascii) : bool :=
  if in_range 48 57 c then true          (* '0' <= c && c <= '9' *)
  else if in_range 97 102 c then true    (* 'a' <= c && c <= 'f' *)
  else if in_range 65 70 c then true     (* 'A' <= c && c <= 'F' *)
  else false.

Definition unhex (c : ascii) : N :=
  if in_range 48 57 c then (N_of_ascii c - 48)%N
  else if in_range 97 102 c then (N_of_ascii c - 97 + 10)%N
  else if in_range 65 70 c then (N_of_ascii c - 65 + 10)%N
  else 0%N.

(** [s[:3]] when [len(s) > 3], else [s]. *)
Definition first3 (s : string) : string :=
  match s with
  | String a (String b (String c _)) => String a (String b (String c EmptyString))
  | _ => s
  end.

(** First pass: the number of '%' seen and whether a '+' was seen, or the
    [EscapeError] of the first malformed escape. *)
Fixpoint check (s : string) (n : nat) (hasPlus : bool) : error + (nat * bool) :=
  match s with
  | EmptyString => inr (n, hasPlus)
  | String c rest =>
      if Ascii.eqb c "%" then
        match rest with
        | String h1 (String h2 rest') =>
            if ishex h1 && ishex h2 then check rest' (S n) hasPlus
            else inl (EscapeError (first3 s))
        | _ => inl (EscapeError (first3 s))
        end
      else if Ascii.eqb c "+" then check rest n true
      else check rest n hasPlus
  end.

(** Second pass: [unhex(s[i+1])<<4 | unhex(s[i+2])] for an escape, a space
    for '+', the byte itself otherwise.  The first pass excludes the
    truncated escape. *)
Fixpoint build (s : string) : string :=
  match s with
  | EmptyString => EmptyString
  | String c rest =>
      if Ascii.eqb c "%" then
        match rest with
        | String h1 (String h2 rest') =>
            String (ascii_of_N (N.lor (N.shiftl (unhex h1) 4) (unhex h2)))
                   (build rest')
        | _ => EmptyString
        end
      else if Ascii.eqb c "+" then String " " (build rest)
      else String c (build rest)
  end.

Definition QueryUnescape (s : string) : error + string :=
  match check s 0 false with
  | inl e => inl e
  | inr (n, hasPlus) =>
      if Nat.eqb n 0 && negb hasPlus then inr s else inr (build s)
  end.

(** Query-style unescaping as the words have it: an escape [%XY] becomes
    the byte [XY], a '+' becomes a space, any other byte stays. *)
Inductive unescapes : string → string → Prop :=
| unescapes_nil : unescapes EmptyString EmptyString
| unescapes_pct h1 h2 s t :
    ishex h1 = true → ishex h2 = true → unescapes s t →
    unescapes (String "%" (String h1 (String h2 s)))
              (String (ascii_of_N (16 * unhex h1 + unhex h2)) t)
| unescapes_plus s t :
    unescapes s t → unescapes (String "+" s) (String " " t)
| unescapes_other c s t :
    c ≠ "%"%char → c ≠ "+"%char → unescapes s t →
    unescapes (String c s) (String c t).

End url.

(** ** Messages and notification envelopes *)

(** [awssqs.Message]: the two fields the package reads, both pointers. *)
Record Message := {
  Body : option string;
  ReceiptHandle : option string;
}.

(** One entry of [events.Records]: [S3.Bucket.Name] and [S3.Object.Key], the
    only fields [drain] reads. *)
Record event := {
  Name : string;
  Key : string;
}.

Record events := { Records : list event }.

Definition payload := list byte.

(** ** Actions, program counters and the outcome of blocking calls *)

Definition ctxTag : string := "s3sqs".

Inductive action :=
| AStartPolling                          (* s.sqs.StartPolling(1, 100, nil, nil) *)
| ADeleteMessage (msg : Message)         (* s.sqs.DeleteMessage(msg) *)
| AUnmarshal (body : string)             (* json.Unmarshal of the body into events *)
| AError (e : error)                     (* s.monitor.Error(e) *)
| ACount1 (tag name : string)            (* s.monitor.Count1(tag, name) *)
| ADuration (tag name : string)          (* s.monitor.Duration(tag, name, start) *)
| ALoad (uri : string)                   (* s.loader.Load(context.Background(), uri) *)
| AHandler (data : payload) (ret : bool) (* handler(data), with what it returned *)
| AAcquire (n : Z)                       (* s.limit.Acquire(ctx, n) returned nil *)
| ARelease (n : Z)                       (* s.limit.Release(n) *)
| AGo (bucket key : string)              (* go s.ingest(bucket, key, handler) *)
| ACancel (ctx : nat)                    (* s.cancel() of the context [ctx] *)
| ANilCancel                             (* s.cancel() with s.cancel == nil *)
| ASqsClose.                             (* s.sqs.Close() *)

Inductive choice :=
| ChTau
| ChDone                                 (* case <-ctx.Done() *)
| ChRecv (msg : option Message) (del : option error)
    (* case msg := <-queue, and what DeleteMessage returns if it is called *)
| ChAcquire (ok : bool)                  (* Acquire returned nil / ctx.Err() *)
| ChLoad (r : error + payload).          (* what Load returned *)

Inductive drain_pc :=
| DSelect                                          (* at the select *)
| DRange (rest : list event)                       (* at the head of the for-range *)
| DAcquire (bucket key : string) (rest : list event) (* in s.limit.Acquire(ctx, 1) *)
| DGo (bucket key : string) (rest : list event)    (* before the go statement *)
| DReturned.

Inductive ingest_pc :=
| ILoad (bucket key : string)   (* in s.loader.Load *)
| IHandle (data : payload)      (* before handler(data) *)
| IRelease                      (* returning: deferred s.limit.Release(1) *)
| IDuration                     (* returning: deferred s.monitor.Duration *)
| IDone.

Inductive close_pc :=
| CCancel | CSqsClose | CAcquire | CReturned.

(** ** The limiter, the threads and the shared state *)

(** [semaphore.Weighted], without its queue of waiters: [Acquire(ctx, n)]
    may return nil when [n] units are free and may return [ctx.Err()] when
    [ctx] is done; otherwise it blocks.  The waiters only make it block
    longer. *)
Record Weighted := { size : Z; cur : Z }.

Definition NewWeighted (n : Z) : Weighted := {| size := n; cur := 0 |}.

Definition can_acquire (s : Weighted) (n : Z) : bool := (n <=? size s - cur s)%Z.

Definition Acquire (s : Weighted) (n : Z) : Weighted :=
  {| size := size s; cur := cur s + n |}.

(** [Release] panics when more is released than is held. *)
Definition Release (s : Weighted) (n : Z) : option Weighted :=
  if (cur s - n <? 0)%Z then None else Some {| size := size s; cur := cur s - n |}.

Inductive thread :=
| TDrain (ctx : nat) (handler : payload → bool) (pc : drain_pc)
| TIngest (handler : payload → bool) (pc : ingest_pc)
| TClose (pc : close_pc).

Definition handler_of (t : thread) : payload → bool :=
  match t with
  | TDrain _ h _ | TIngest h _ => h
  | TClose _ => λ _, false
  end.

(** The [Ingress] fields that change ([cancel], [limit]), the contexts made
    by [Range] with their cancelled flag, the goroutines and callers of
    [Close], the calls made so far with the thread that made them, and
    whether the process has panicked. *)
Record state := {
  cancel : option nat;
  limit : Weighted;
  ctxs : list bool;
  threads : list thread;
  trace : list (nat * action);
  panicked : bool;
}.

Definition set_limit (l : Weighted) (st : state) : state :=
  {| cancel := cancel st; limit := l; ctxs := ctxs st; threads := threads st;
     trace := trace st; panicked := panicked st |}.

Definition set_ctxs (cs : list bool) (st : state) : state :=
  {| cancel := cancel st; limit := limit st; ctxs := cs; threads := threads st;
     trace := trace st; panicked := panicked st |}.

Definition set_threads (ts : list thread) (st : state) : state :=
  {| cancel := cancel st; limit := limit st; ctxs := ctxs st; threads := ts;
     trace := trace st; panicked := panicked st |}.

Definition set_panicked (st : state) : state :=
  {| cancel := cancel st; limit := limit st; ctxs := ctxs st; threads := threads st;
     trace := trace st; panicked := true |}.

Definition log (tid : nat) (acts : list action) (st : state) : state :=
  {| cancel := cancel st; limit := limit st; ctxs := ctxs st; threads := threads st;
     trace := trace st ++ ((tid,.) <$> acts); panicked := panicked st |}.

Inductive label :=
| LRange (f : payload → bool)   (* the caller runs Range(f) *)
| LClose                        (* the caller enters Close() *)
| LStep (tid : nat) (c : choice).

(** ** Sample notifications

    Bodies in the shape of an S3 event notification, and a decoder that
    knows the sample envelopes: on their bodies it returns what
    [json.Unmarshal] returns, and it rejects every other body. *)
Module sample.

Definition quote (s : string) : string :=
  String "034" (s +:+ String "034" EmptyString).

Definition render_record (ev : event) : string :=
  "{" +:+ quote "s3" +:+ ":{"
      +:+ quote "bucket" +:+ ":{" +:+ quote "name" +:+ ":" +:+ quote (Name ev) +:+ "},"
      +:+ quote "object" +:+ ":{" +:+ quote "key" +:+ ":" +:+ quote (Key ev) +:+ "}}}".

Fixpoint join (ss : list string) : string :=
  match ss with
  | [] => EmptyString
  | [s] => s
  | s :: ss => s +:+ "," +:+ join ss
  end.

Definition render (evs : events) : string :=
  "{" +:+ quote "Records" +:+ ":[" +:+ join (render_record <$> Records evs) +:+ "]}".

Definition record (key : string) : event := {| Name := "b"; Key := key |}.

Definition one : events := {| Records := [record "a%2Fb.json"] |}.
Definition four : events :=
  {| Records := [record "k1"; record "k2"; record "k3"; record "k4"] |}.
Definition undecodable : events := {| Records := [record "%zz"] |}.
Definition mixed : events :=
  {| Records := [record "a%2Fb.json"; record "%zz"; record "c+d"] |}.

Definition table : list events := [one; four; undecodable; mixed].

Definition Unmarshal (body : string) : error + events :=
  match List.find (λ evs, String.eqb (render evs) body) table with
  | Some evs => inr evs
  | None => inl (ErrOpaque "invalid character")
  end.

Definition message (evs : events) : Message :=
  {| Body := Some (render evs); ReceiptHandle := Some "receipt" |}.

Definition corrupt : Message :=
  {| Body := Some "not json"; ReceiptHandle := Some "receipt" |}.

Definition corrupt_no_receipt : Message :=
  {| Body := Some "not json"; ReceiptHandle := None |}.

Definition accept : payload → bool := λ _, true.
Definition decline : payload → bool := λ _, false.

(** One notification is fetched and handled, its task releases its unit,
    and [Close] runs to its end. *)
Definition closing : list label :=
  [LRange accept;
   LStep 0 (ChRecv (Some (message one)) None);
   LStep 0 ChTau; LStep 0 (ChAcquire true); LStep 0 ChTau;
   LStep 1 (ChLoad (inr [])); LStep 1 ChTau; LStep 1 ChTau;
   LClose; LStep 2 ChTau; LStep 2 ChTau; LStep 2 (ChAcquire true)].

(** Three tasks are started for the first three records of a
    notification ... *)
Definition three_started : list label :=
  [LRange accept;
   LStep 0 (ChRecv (Some (message four)) None);
   LStep 0 ChTau; LStep 0 (ChAcquire true); LStep 0 ChTau;
   LStep 0 ChTau; LStep 0 (ChAcquire true); LStep 0 ChTau;
   LStep 0 ChTau; LStep 0 (ChAcquire true); LStep 0 ChTau].

(** ... the first one fetches, handles and releases its unit, and a task
    is started for the fourth record. *)
Definition fourth_started : list label :=
  three_started ++
  [LStep 1 (ChLoad (inr [])); LStep 1 ChTau; LStep 1 ChTau;
   LStep 0 ChTau; LStep 0 (ChAcquire true); LStep 0 ChTau].

(** Under the handler [f], one notification is received, its object is
    fetched, the handler is called on the payload and the task releases
    its unit. *)
Definition handled (f : payload → bool) : list label :=
  [LRange f;
   LStep 0 (ChRecv (Some (message one)) None);
   LStep 0 ChTau; LStep 0 (ChAcquire true); LStep 0 ChTau;
   LStep 1 (ChLoad (inr [])); LStep 1 ChTau; LStep 1 ChTau].

(** A task is started and its download fails. *)
Definition failed_fetch : list label :=
  [LRange accept;
   LStep 0 (ChRecv (Some (message one)) None);
   LStep 0 ChTau; LStep 0 (ChAcquire true); LStep 0 ChTau;
   LStep 1 (ChLoad (inl (ErrOpaque "timeout")))].

(** After [closing], the drain loop ends its for-range and sees its
    context done. *)
Definition drained : list label := closing ++ [LStep 0 ChTau; LStep 0 ChDone].

(** [Range] is called twice, and then [Close] runs to its end and the
    second drain loop returns. *)
Definition ranged_twice : list label := [LRange accept; LRange decline].

Definition closed_after : list label :=
  [LClose; LStep 2 ChTau; LStep 2 ChTau; LStep 2 (ChAcquire true);
   LStep 1 ChDone].

(** The for-range over [mixed]: a task for the first record, a report for
    the second, and an [Acquire] that fails for the third. *)
Definition interrupted : list choice :=
  [ChTau; ChAcquire true; ChTau; ChTau; ChTau; ChAcquire false; ChTau].

End sample.

(** ** The goroutines *)

Section Ingress.

(** [runtime.NumCPU()] and [json.Unmarshal] into an [events] value. *)
Variable numCPU : Z.
Variable Unmarshal : string → error + events.

Definition wrap64 (z : Z) : Z := ((z + 2 ^ 63) mod 2 ^ 64 - 2 ^ 63)%Z.

(** [var concurrency = int64(runtime.NumCPU() * 3)] *)
Definition concurrency : Z := wrap64 (numCPU * 3).

(** [acknowledge]: the calls made and the error returned. *)
Definition acknowledge (msg : Message) (del : option error)
  : list action * option error :=
  match ReceiptHandle msg with
  | None => ([], None)
  | Some _ =>
      match del with
      | Some err => ([ADeleteMessage msg], Some (Internal "sqs: unable to delete" err))
      | None => ([ADeleteMessage msg], None)
      end
  end.

(** [drain], from one synchronisation point to the next. *)
Definition drain_step (pc : drain_pc) (c : choice)
  : option (drain_pc * list action) :=
  match pc, c with
  | DSelect, ChDone => Some (DReturned, [])
  | DSelect, ChRecv None _ => Some (DSelect, [])
  | DSelect, ChRecv (Some msg) del =>
      match Body msg with
      | None => Some (DSelect, [])
      | Some body =>
          match acknowledge msg del with
          | (acts, Some err) => Some (DSelect, acts ++ [AError err])
          | (acts, None) =>
              match Unmarshal body with
              | inl err =>
                  Some (DSelect,
                        acts ++ [AUnmarshal body;
                                 AError (Internal "sqs: unable to unmarshal" err)])
              | inr evs => Some (DRange (Records evs), acts ++ [AUnmarshal body])
              end
          end
      end
  | DRange [], ChTau => Some (DSelect, [])
  | DRange (ev :: rest), ChTau =>
      match url.QueryUnescape (Key ev) with
      | inl err =>
          Some (DRange rest,
                [AError (Internal "sqs: unable to unescape query" err)])
      | inr key => Some (DAcquire (Name ev) key rest, [])
      end
  | DAcquire bucket key rest, ChAcquire true =>
      Some (DGo bucket key rest, [AAcquire 1])
  | DAcquire bucket key rest, ChAcquire false => Some (DRange rest, [])
  | DGo bucket key rest, ChTau => Some (DRange rest, [AGo bucket key])
  | _, _ => None
  end.

(** [fmt.Sprintf("s3://%s/%s", bucket, key)] *)
Definition locator (bucket key : string) : string :=
  "s3://" +:+ bucket +:+ "/" +:+ key.

(** [ingest].  The deferred calls run last in, first out: [Release] was
    deferred after [Duration], so it runs before it. *)
Definition ingest_step (handler : payload → bool) (pc : ingest_pc) (c : choice)
  : option (ingest_pc * list action) :=
  match pc, c with
  | ILoad bucket key, ChLoad (inl err) =>
      Some (IRelease,
            [ALoad (locator bucket key); ACount1 ctxTag "s3readerror"; AError err])
  | ILoad bucket key, ChLoad (inr data) =>
      Some (IHandle data, [ALoad (locator bucket key)])
  | IHandle data, ChTau => Some (IRelease, [AHandler data (handler data)])
  | IRelease, ChTau => Some (IDuration, [ARelease 1])
  | IDuration, ChTau => Some (IDone, [ADuration ctxTag "s3sqs"])
  | _, _ => None
  end.

(** [Close], given the [cancel] field of the receiver. *)
Definition Close_step (cancel : option nat) (pc : close_pc) (c : choice)
  : option (close_pc * list action) :=
  match pc, c with
  | CCancel, ChTau =>
      match cancel with
      | None => Some (CCancel, [ANilCancel])
      | Some ctx => Some (CSqsClose, [ACancel ctx])
      end
  | CSqsClose, ChTau => Some (CAcquire, [ASqsClose])
  | CAcquire, ChAcquire true => Some (CReturned, [AAcquire concurrency])
  | _, _ => None
  end.

(** *** The whole program *)

(** [NewWith] *)
Definition NewWith : state :=
  {| cancel := None; limit := NewWeighted concurrency; ctxs := [];
     threads := []; trace := []; panicked := false |}.

Definition ctx_done (st : state) (ctx : nat) : bool :=
  default false (ctxs st !! ctx).

(** Which outcome of a blocking call the shared state allows.  [Close]
    acquires under [context.Background()], which is never done. *)
Definition enabled (st : state) (t : thread) (c : choice) : bool :=
  match t, c with
  | TDrain ctx _ DSelect, ChDone => ctx_done st ctx
  | TDrain ctx _ (DAcquire _ _ _), ChAcquire true => can_acquire (limit st) 1
  | TDrain ctx _ (DAcquire _ _ _), ChAcquire false => ctx_done st ctx
  | TClose CAcquire, ChAcquire true => can_acquire (limit st) concurrency
  | TClose CAcquire, ChAcquire false => false
  | _, _ => true
  end.

Definition thread_step (st : state) (t : thread) (c : choice)
  : option (thread * list action) :=
  match t with
  | TDrain ctx h pc => prod_map (TDrain ctx h) id <$> drain_step pc c
  | TIngest h pc => prod_map (TIngest h) id <$> ingest_step h pc c
  | TClose pc => prod_map TClose id <$> Close_step (cancel st) pc c
  end.

(** What a call made by a thread running [t] does to the shared state. *)
Definition effect (t : thread) (st : state) (a : action) : state :=
  match a with
  | AAcquire n => set_limit (Acquire (limit st) n) st
  | ARelease n =>
      match Release (limit st) n with
      | Some l => set_limit l st
      | None => set_panicked st
      end
  | AGo bucket key =>
      set_threads (threads st ++ [TIngest (handler_of t) (ILoad bucket key)]) st
  | ACancel ctx => set_ctxs (<[ctx := true]> (ctxs st)) st
  | ANilCancel => set_panicked st
  | _ => st
  end.

(** [Range] is one step of the caller: a new context, [s.cancel], the
    polling channel and the drain goroutine on it. *)
Definition Range (f : payload → bool) (st : state) : state :=
  {| cancel := Some (length (ctxs st));
     limit := limit st;
     ctxs := ctxs st ++ [false];
     threads := threads st ++ [TDrain (length (ctxs st)) f DSelect];
     trace := trace st ++ [(length (threads st), AStartPolling)];
     panicked := panicked st |}.

Definition step (st : state) (l : label) : option state :=
  if panicked st then None else
  match l with
  | LRange f => Some (Range f st)
  | LClose => Some (set_threads (threads st ++ [TClose CCancel]) st)
  | LStep tid c =>
      t ← threads st !! tid;
      if enabled st t c then
        '(t', acts) ← thread_step st t c;
        Some (log tid acts
                (foldl (effect t) (set_threads (<[tid := t']> (threads st)) st) acts))
      else None
  end.

Fixpoint run (st : state) (ls : list label) : option state :=
  match ls with
  | [] => Some st
  | l :: ls => st' ← step st l; run st' ls
  end.

(** *** Runs of one goroutine *)

(** A goroutine taken alone: the outcomes of its blocking calls in, the
    calls it made out. *)
Fixpoint steps {pc : Type} (f : pc → choice → option (pc * list action))
    (p : pc) (cs : list choice) : option (pc * list action) :=
  match cs with
  | [] => Some (p, [])
  | c :: cs =>
      '(p', acts) ← f p c;
      '(p'', acts') ← steps f p' cs;
      Some (p'', acts ++ acts')
  end.

(** The [go s.ingest(bucket, key, handler)] statements among some calls. *)
Definition dispatched (acts : list action) : list (string * string) :=
  omap (λ a, match a with AGo b k => Some (b, k) | _ => None end) acts.

Definition deletions (acts : list action) : list Message :=
  omap (λ a, match a with ADeleteMessage m => Some m | _ => None end) acts.

Definition released (acts : list action) : list Z :=
  omap (λ a, match a with ARelease n => Some n | _ => None end) acts.

(** No [Acquire] of the schedule fails: every choice is a plain step or a
    successful acquire. *)
Definition uncancelled (c : choice) : Prop := c = ChTau ∨ c = ChAcquire true.

(** What the for-range body does for one record when its acquire succeeds. *)
Definition record_calls (ev : event) : list action :=
  match url.QueryUnescape (Key ev) with
  | inl err => [AError (Internal "sqs: unable to unescape query" err)]
  | inr key => [AAcquire 1; AGo (Name ev) key]
  end.

Definition record_schedule (ev : event) : list choice :=
  match url.QueryUnescape (Key ev) with
  | inl _ => [ChTau]
  | inr _ => [ChTau; ChAcquire true; ChTau]
  end.

(** The locators of an envelope: one per record whose key unescapes. *)
Definition locators (rs : list event) : list (string * string) :=
  omap (λ ev, match url.QueryUnescape (Key ev) with
              | inl _ => None
              | inr key => Some (Name ev, key)
              end) rs.

(** *** Limiter accounting *)

(** The units of the limiter a thread holds: one between a successful
    [Acquire] and the [go] statement, one from the start of [ingest] to
    its deferred [Release], all of them once [Close] has returned. *)
Definition holds_unit (t : thread) : bool :=
  match t with
  | TDrain _ _ (DGo _ _ _) => true
  | TIngest _ (ILoad _ _ | IHandle _ | IRelease) => true
  | _ => false
  end.

Definition held (t : thread) : Z :=
  match t with
  | TClose CReturned => concurrency
  | _ => if holds_unit t then 1 else 0
  end%Z.

Definition total_held (ts : list thread) : Z :=
  foldr (λ t n, held t + n)%Z 0%Z ts.

(** A task that has been dispatched and has not returned yet. *)
Definition unfinished (t : thread) : bool :=
  match t with
  | TIngest _ IDone => false
  | TIngest _ _ => true
  | _ => false
  end.

(** A task that is fetching, handling, or about to release its unit. *)
Definition in_flight (t : thread) : bool :=
  match t with
  | TIngest _ (ILoad _ _ | IHandle _ | IRelease) => true
  | _ => false
  end.

Definition count (p : thread → bool) (st : state) : Z :=
  Z.of_nat (length (filter (λ t, p t = true) (threads st))).

(** The calls of thread [i] in a trace. *)
Definition own (i : nat) (tr : list (nat * action)) : list action :=
  (filter (λ p, p.1 = i) tr).*2.

(** The calls a caller of [Close] has made when it is at [pc]. *)
Definition Close_calls (pc : close_pc) (h : list action) : Prop :=
  match pc with
  | CCancel => h = [] ∨ h = [ANilCancel]
  | CSqsClose => ∃ ctx, h = [ACancel ctx]
  | CAcquire => ∃ ctx, h = [ACancel ctx; ASqsClose]
  | CReturned => ∃ ctx, h = [ACancel ctx; ASqsClose; AAcquire concurrency]
  end.

(** What every reachable state satisfies: the limiter has its capacity and
    counts the units the threads hold, within that capacity; the trace only
    names threads that exist; the cancel function is that of a context that
    exists, and a cancelled context is done; the process has panicked if and
    only if a nil cancel function was called; and a caller of [Close] has
    made the calls before its program point. *)
Record inv (st : state) : Prop := {
  inv_size : size (limit st) = concurrency;
  inv_cur : cur (limit st) = total_held (threads st);
  inv_bound : (cur (limit st) ≤ concurrency)%Z;
  inv_tags : ∀ j a, (j, a) ∈ trace st → j < length (threads st);
  inv_cancel : ∀ ctx, cancel st = Some ctx → ctx < length (ctxs st);
  inv_done : ∀ j ctx, (j, ACancel ctx) ∈ trace st → ctxs st !! ctx = Some true;
  inv_nil : ∀ j, (j, ANilCancel) ∈ trace st → panicked st = true;
  inv_close : ∀ i pc, threads st !! i = Some (TClose pc) →
                      Close_calls pc (own i (trace st));
  inv_panic : panicked st = true → ∃ j, (j, ANilCancel) ∈ trace st;
}.

(** *** Handlers erased *)

(** A state, a label or a call with the handler and what it returned
    forgotten. *)
Definition blind : payload → bool := λ _, false.

Definition erase_thread (t : thread) : thread :=
  match t with
  | TDrain ctx _ pc => TDrain ctx blind pc
  | TIngest _ pc => TIngest blind pc
  | TClose pc => TClose pc
  end.

Definition erase_action (a : action) : action :=
  match a with
  | AHandler data _ => AHandler data false
  | _ => a
  end.

Definition erase_label (l : label) : label :=
  match l with
  | LRange _ => LRange blind
  | _ => l
  end.

Definition erase (st : state) : state :=
  {| cancel := cancel st; limit := limit st; ctxs := ctxs st;
     threads := erase_thread <$> threads st;
     trace := prod_map id erase_action <$> trace st;
     panicked := panicked st |}.

(** *** The properties as first written

    Stronger readings of five properties, kept to be tested against the
    code. *)

(** Once a [Close] has returned no task is still running. *)
Definition barrier_as_stated : Prop :=
  ∀ ls st i, run NewWith ls = Some st →
    threads st !! i = Some (TClose CReturned) →
    ∀ j t, threads st !! j = Some t → unfinished t = false.


(** An acknowledged message with a valid envelope of N records gets N
    tasks when no acquire is cancelled. *)
Definition dispatch_all_as_stated : Prop :=
  ∀ msg del body evs cs acts,
    Body msg = Some body → Unmarshal body = inr evs →
    (acknowledge msg del).2 = None →
    Forall uncancelled cs →
    steps drain_step DSelect (ChRecv (Some msg) del :: cs) = Some (DSelect, acts) →
    length (dispatched acts) = length (Records evs).

(** [Close] without a [Range] before it does not crash. *)
Definition Close_unstarted_as_stated : Prop :=
  ∀ ls st, (∀ f, LRange f ∉ ls) → run NewWith ls = Some st → panicked st = false.

(** A message whose body does not decode is deleted exactly once. *)
Definition corrupt_deleted_once_as_stated : Prop :=
  ∀ msg del body err,
    Body msg = Some body → Unmarshal body = inl err →
    ∃ pc acts, drain_step DSelect (ChRecv (Some msg) del) = Some (pc, acts) ∧
               deletions acts = [msg].

(** *** Further notions

    Used by the properties of the code beyond the ten above. *)

(** A key without '%' and without '+'. *)
Fixpoint plain (s : string) : bool :=
  match s with
  | EmptyString => true
  | String c rest =>
      negb (Ascii.eqb c "%") && negb (Ascii.eqb c "+") && plain rest
  end.

(** The number of '%' of a key. *)
Fixpoint percents (s : string) : nat :=
  match s with
  | EmptyString => 0
  | String c rest => (if Ascii.eqb c "%" then 1 else 0) + percents rest
  end.

(** What follows a '%' is not two hexadecimal digits. *)
Definition malformed (rest : string) : Prop :=
  match rest with
  | String h1 (String h2 _) => url.ishex h1 && url.ishex h2 = false
  | _ => True
  end.

(** A bucket name without '/'. *)
Fixpoint slash_free (s : string) : bool :=
  match s with
  | EmptyString => true
  | String c rest => negb (Ascii.eqb c "/") && slash_free rest
  end.

(** The choices of a drain loop inside its for-range: a plain step, or an
    acquire that succeeds or fails. *)
Definition loop_choice (c : choice) : Prop := c = ChTau ∨ ∃ ok, c = ChAcquire ok.

(** The errors reported among some calls. *)
Definition reported (acts : list action) : list error :=
  omap (λ a, match a with AError e => Some e | _ => None end) acts.

(** The reports an envelope is due: one per record whose key does not
    unescape. *)
Definition key_errors (rs : list event) : list error :=
  omap (λ ev, match url.QueryUnescape (Key ev) with
              | inl err => Some (Internal "sqs: unable to unescape query" err)
              | inr _ => None
              end) rs.

(** The calls of an execution, whoever made them. *)
Definition calls (st : state) : list action := (trace st).*2.

(** The messages a schedule delivers, and the downloads it lets fail. *)
Fixpoint receives (ls : list label) : nat :=
  match ls with
  | [] => 0
  | LStep _ (ChRecv (Some _) _) :: ls => S (receives ls)
  | _ :: ls => receives ls
  end.

Fixpoint failed_loads (ls : list label) : nat :=
  match ls with
  | [] => 0
  | LStep _ (ChLoad (inl _)) :: ls => S (failed_loads ls)
  | _ :: ls => failed_loads ls
  end.

(** The counters incremented among some calls. *)
Definition counted (acts : list action) : list (string * string) :=
  omap (λ a, match a with ACount1 tag name => Some (tag, name) | _ => None end) acts.

(** The handlers a schedule passes to [Range], and the payloads it lets the
    downloader return, with the thread that gets them. *)
Definition handlers (ls : list label) : list (payload → bool) :=
  omap (λ l, match l with LRange f => Some f | _ => None end) ls.

Definition loaded (ls : list label) : list (nat * payload) :=
  omap (λ l, match l with
             | LStep j (ChLoad (inr data)) => Some (j, data)
             | _ => None
             end) ls.

(** The task a [go] statement of thread [t] starts. *)
Definition spawned (t : thread) (bk : string * string) : thread :=
  TIngest (handler_of t) (ILoad bk.1 bk.2).

(** Every goroutine runs a handler among [hs]; a task about to call its
    handler got its payload from the downloader, among [lo]; and every
    handler call so far was the call of a handler among [hs] on such a
    payload. *)
Record handler_inv (hs : list (payload → bool)) (lo : list (nat * payload))
    (st : state) : Prop := {
  hi_threads : ∀ j t, threads st !! j = Some t →
                      (∃ pc, t = TClose pc) ∨ handler_of t ∈ hs;
  hi_payload : ∀ j h data, threads st !! j = Some (TIngest h (IHandle data)) →
                           (j, data) ∈ lo;
  hi_calls : ∀ j data ret, (j, AHandler data ret) ∈ trace st →
                           ∃ h, h ∈ hs ∧ ret = h data ∧ (j, data) ∈ lo;
}.

(** A record of an envelope that a drain loop has decoded, and a bucket and
    key that such a record announces. *)
Definition decoded (tr : list (nat * action)) (ev : event) : Prop :=
  ∃ j body evs,
    (j, AUnmarshal body) ∈ tr ∧ Unmarshal body = inr evs ∧ ev ∈ Records evs.

Definition announced (tr : list (nat * action)) (bucket key : string) : Prop :=
  ∃ ev, decoded tr ev ∧ Name ev = bucket ∧ url.QueryUnescape (Key ev) = inr key.

(** What a thread has in hand comes from decoded envelopes. *)
Definition pending (tr : list (nat * action)) (t : thread) : Prop :=
  match t with
  | TDrain _ _ (DRange rest) => Forall (decoded tr) rest
  | TDrain _ _ (DAcquire b k rest) | TDrain _ _ (DGo b k rest) =>
      announced tr b k ∧ Forall (decoded tr) rest
  | TIngest _ (ILoad b k) => announced tr b k
  | _ => True
  end.

Record load_inv (st : state) : Prop := {
  li_threads : ∀ j t, threads st !! j = Some t → pending (trace st) t;
  li_loads : ∀ j uri, (j, ALoad uri) ∈ trace st →
                      ∃ b k, uri = locator b k ∧ announced (trace st) b k;
}.

(** The cancel function is that of the context of the latest [Range]; a
    context is done only when a caller of [Close] has cancelled it; and a
    drain loop has returned only when its context is done. *)
Record scope_inv (st : state) : Prop := {
  sc_latest : ∀ c, cancel st = Some c → S c = length (ctxs st);
  sc_done : ∀ c, ctxs st !! c = Some true →
                 ∃ i pc, threads st !! i = Some (TClose pc) ∧
                         (i, ACancel c) ∈ trace st;
  sc_returned : ∀ j c h, threads st !! j = Some (TDrain c h DReturned) →
                         ctxs st !! c = Some true;
}.

(** ** Facts about [url.QueryUnescape] *)

Lemma url_unhex_lt c : (url.unhex c < 16)%N.
Proof.
  unfold url.unhex, url.in_range.
  repeat case_match; try lia;
    repeat match goal with
           | H : (_ && _) = true |- _ => apply andb_prop in H as [? ?]
           | H : (_ <=? _)%N = true |- _ => apply N.leb_le in H
           end; lia.
Qed.

Lemma url_nibbles (a b : N) :
  (a < 16 → b < 16 → N.lor (N.shiftl a 4) b = 16 * a + b)%N.
Proof.
  intros Ha Hb.
  assert (Hdisj : N.land (16 * a) b = 0%N).
  { apply N.bits_inj. intros i. rewrite N.land_spec, N.bits_0.
    destruct (decide (i < 4)%N).
    - rewrite (N.mul_comm 16 a). change 16%N with (2 ^ 4)%N.
      by rewrite N.mul_pow2_bits_low.
    - rewrite (N.bits_above_log2 b), andb_false_r; [done|].
      destruct (decide (b = 0%N)) as [->|]; [simpl; lia|].
      apply N.log2_lt_pow2; [lia|].
      eapply N.lt_le_trans; [exact Hb|].
      change 16%N with (2 ^ 4)%N. apply N.pow_le_mono_r; lia. }
  rewrite N.shiftl_mul_pow2. change (2 ^ 4)%N with 16%N.
  rewrite (N.mul_comm a 16), <- N.lxor_lor by done.
  by rewrite N.add_nocarry_lxor.
Qed.

(** The first pass only grows its counters. *)
Lemma url_check_mono s : ∀ n p n' p',
  url.check s n p = inr (n', p') → n ≤ n' ∧ (p = true → p' = true).
Proof.
  remember (String.length s) as len eqn:Hlen.
  revert s Hlen. induction len as [len IH] using lt_wf_ind.
  intros [|c rest] Hlen n p n' p' H; simpl in *.
  - by simplify_eq.
  - destruct (Ascii.eqb c "%").
    + destruct rest as [|h1 [|h2 rest']]; try done.
      destruct (url.ishex h1 && url.ishex h2); [|done].
      eapply (IH (String.length rest')) in H; [|simpl in *; lia|done].
      destruct H; split; [lia|done].
    + destruct (Ascii.eqb c "+").
      * eapply (IH (String.length rest)) in H; [|simpl in *; lia|done].
        destruct H; split; [lia|]. auto.
      * eapply (IH (String.length rest)) in H; [|simpl in *; lia|done]. done.
Qed.

(** A string in which the first pass saw neither '%' nor '+' is left as
    it is by the second. *)
Lemma url_build_plain s : ∀ n n' p',
  url.check s n false = inr (n', p') → n' = n → p' = false → url.build s = s.
Proof.
  induction s as [|c rest IH]; intros n n' p' H Hn Hp; simpl in *; [done|].
  destruct (Ascii.eqb c "%").
  - destruct rest as [|h1 [|h2 rest']]; try done.
    destruct (url.ishex h1 && url.ishex h2); [|done].
    apply url_check_mono in H. lia.
  - destruct (Ascii.eqb c "+").
    + apply url_check_mono in H. destruct H as [_ H]. rewrite H in Hp; done.
    + f_equal. eauto.
Qed.

Lemma url_check_unescapes s : ∀ n p r,
  url.check s n p = inr r → url.unescapes s (url.build s).
Proof.
  remember (String.length s) as len eqn:Hlen.
  revert s Hlen. induction len as [len IH] using lt_wf_ind.
  intros [|c rest] Hlen n p r H; simpl in *; [constructor|].
  destruct (Ascii.eqb_spec c "%") as [->|Hpct].
  - destruct rest as [|h1 [|h2 rest']]; try done.
    destruct (url.ishex h1) eqn:H1, (url.ishex h2) eqn:H2; try done.
    rewrite url_nibbles by apply url_unhex_lt.
    constructor; [done..|].
    simpl in *. eapply (IH (String.length rest')); [lia|done|exact H].
  - destruct (Ascii.eqb_spec c "+") as [->|Hplus].
    + constructor. eapply (IH (String.length rest)); [simpl in *; lia|done|exact H].
    + constructor; [done..|].
      eapply (IH (String.length rest)); [simpl in *; lia|done|exact H].
Qed.

Lemma url_unescapes_check s t :
  url.unescapes s t →
  t = url.build s ∧ ∀ n p, ∃ r, url.check s n p = inr r.
Proof.
  induction 1 as [|h1 h2 s t H1 H2 _ [-> IH]|s t _ [-> IH]|c s t Hpct Hplus _ [-> IH]];
    simpl.
  - eauto.
  - rewrite H1, H2, url_nibbles by apply url_unhex_lt. simpl. eauto.
  - eauto.
  - destruct (Ascii.eqb_spec c "%"); [done|].
    destruct (Ascii.eqb_spec c "+"); [done|]. eauto.
Qed.

(** [QueryUnescape] succeeds exactly on the strings that unescape, with
    that result. *)
Lemma url_QueryUnescape_spec s t :
  url.QueryUnescape s = inr t ↔ url.unescapes s t.
Proof.
  unfold url.QueryUnescape. split.
  - destruct (url.check s 0 false) as [e|[n p]] eqn:Hc; [done|].
    pose proof (url_check_unescapes _ _ _ _ Hc) as Hu.
    destruct (Nat.eqb_spec n 0) as [->|]; destruct p; simpl;
      intros [= <-]; try done.
    by rewrite <- (url_build_plain _ _ _ _ Hc eq_refl eq_refl) at 2.
  - intros [-> Hc]%url_unescapes_check.
    destruct (Hc 0 false) as [[n p] Hr]. rewrite Hr.
    destruct (Nat.eqb_spec n 0) as [->|]; destruct p; simpl; try done.
    by rewrite (url_build_plain _ _ _ _ Hr eq_refl eq_refl).
Qed.

Lemma append_nil_l s : "" +:+ s = s.
Proof. reflexivity. Qed.

Lemma append_cons c s t : String c s +:+ t = String c (s +:+ t).
Proof. reflexivity. Qed.

(** A '+' of the raw string is never part of an escape: the string
    unescapes piecewise around it, with a space in its place. *)
Lemma url_unescapes_plus_split s1 : ∀ s2 t,
  url.unescapes (s1 +:+ String "+" s2) t →
  ∃ t1 t2, t = t1 +:+ String " " t2 ∧
           url.unescapes s1 t1 ∧ url.unescapes s2 t2.
Proof.
  remember (String.length s1) as len eqn:Hlen.
  revert s1 Hlen. induction len as [len IH] using lt_wf_ind.
  intros [|c s1] Hlen s2 t H.
  - rewrite append_nil_l in H. inversion H; subst; try done.
    eexists EmptyString, _. split; [done|]. split; [constructor|done].
  - rewrite append_cons in H. simpl in Hlen.
    inversion H as [|h1 h2 s' t' Hh1 Hh2 H'|s' t' H'|c' s' t' ? ? H']; subst.
    + match goal with Hs : String h1 _ = _ |- _ =>
        destruct s1 as [|a [|b s1']];
          rewrite ?append_cons, ?append_nil_l in Hs; simplify_eq
      end.
      destruct (IH (String.length s1')) with (s1 := s1') (s2 := s2) (t := t')
        as (t1 & t2 & -> & ? & ?); [simpl; lia|done|done|].
      eexists (String _ t1), t2. split; [done|]. split; [|done].
      by constructor.
    + destruct (IH (String.length s1)) with (s1 := s1) (s2 := s2) (t := t')
        as (t1 & t2 & -> & ? & ?); [lia|done|done|].
      eexists (String _ t1), t2. split; [done|]. split; [|done].
      by constructor.
    + destruct (IH (String.length s1)) with (s1 := s1) (s2 := s2) (t := t')
        as (t1 & t2 & -> & ? & ?); [lia|done|done|].
      eexists (String _ t1), t2. split; [done|]. split; [|done].
      by constructor.
Qed.

(** ** One goroutine at a time *)

Lemma steps_app {pc : Type} (f : pc → choice → option (pc * list action))
    cs1 : ∀ p cs2,
  steps f p (cs1 ++ cs2) =
    '(p', a1) ← steps f p cs1;
    '(p'', a2) ← steps f p' cs2;
    Some (p'', a1 ++ a2).
Proof.
  induction cs1 as [|c cs1 IH]; intros p cs2; simpl.
  - by destruct (steps f p cs2) as [[? ?]|].
  - destruct (f p c) as [[p' a]|]; simpl; [|done].
    rewrite IH. destruct (steps f p' cs1) as [[p1 a1]|]; simpl; [|done].
    destruct (steps f p1 cs2) as [[p2 a2]|]; simpl; [|done].
    by rewrite app_assoc.
Qed.

Lemma dispatched_app a b : dispatched (a ++ b) = dispatched a ++ dispatched b.
Proof. apply omap_app. Qed.

Lemma dispatched_record_calls rs : dispatched (rs ≫= record_calls) = locators rs.
Proof.
  induction rs as [|ev rs IH]; [done|].
  rewrite bind_cons, dispatched_app, IH. unfold record_calls, locators.
  simpl. by destruct (url.QueryUnescape (Key ev)).
Qed.

(** At the select, a schedule without a message and without a failed
    acquire has nothing to run. *)
Lemma drain_select_uncancelled cs pc acts :
  Forall uncancelled cs →
  steps drain_step DSelect cs = Some (pc, acts) → cs = [] ∧ acts = [].
Proof.
  intros Hcs H. destruct Hcs as [|c cs [->| ->] _]; simpl in H; by simplify_eq.
Qed.

(** The for-range loop, when no acquire fails: the calls are those of
    each record in turn. *)
Lemma drain_range_run rs : ∀ cs acts,
  Forall uncancelled cs →
  steps drain_step (DRange rs) cs = Some (DSelect, acts) →
  acts = rs ≫= record_calls.
Proof.
  induction rs as [|ev rs IH]; intros cs acts Hcs H.
  - destruct Hcs as [|c cs [->| ->] Hcs]; simpl in H; simplify_eq.
    destruct (steps drain_step DSelect cs) as [[pc a]|] eqn:Hs; simplify_eq/=.
    by apply drain_select_uncancelled in Hs as [_ ->].
  - destruct Hcs as [|c cs [->| ->] Hcs]; simpl in H; simplify_eq.
    rewrite bind_cons. unfold record_calls at 1.
    destruct (url.QueryUnescape (Key ev)) as [err|key]; simpl in H.
    + destruct (steps drain_step (DRange rs) cs) as [[pc a]|] eqn:Hs;
        simplify_eq/=.
      f_equal. eauto.
    + destruct Hcs as [|c cs [->| ->] Hcs]; simpl in H; simplify_eq.
      destruct Hcs as [|c cs [->| ->] Hcs]; simpl in H; simplify_eq.
      destruct (steps drain_step (DRange rs) cs) as [[pc a]|] eqn:Hs;
        simplify_eq/=.
      do 2 f_equal. eauto.
Qed.

Lemma record_schedule_uncancelled rs :
  Forall uncancelled ((rs ≫= record_schedule) ++ [ChTau]).
Proof.
  apply Forall_app. split; [|by repeat constructor].
  apply Forall_bind, Forall_forall. intros ev _.
  change (Forall uncancelled (record_schedule ev)). unfold record_schedule.
  destruct (url.QueryUnescape (Key ev));
    repeat (constructor; [first [by left|by right]|]); constructor.
Qed.

(** ... and there is such a run. *)
Lemma drain_range_schedule rs :
  steps drain_step (DRange rs) ((rs ≫= record_schedule) ++ [ChTau])
  = Some (DSelect, rs ≫= record_calls).
Proof.
  induction rs as [|ev rs IH]; [done|].
  rewrite !bind_cons, <- app_assoc, steps_app.
  assert (steps drain_step (DRange (ev :: rs)) (record_schedule ev)
          = Some (DRange rs, record_calls ev)) as ->.
  { unfold record_schedule, record_calls.
    by destruct (url.QueryUnescape (Key ev)) eqn:Hkey; simpl; rewrite Hkey. }
  simpl. by rewrite IH.
Qed.

(** ** The whole program: what a step leaves alone *)

Lemma step_LStep st tid c st' :
  step st (LStep tid c) = Some st' →
  panicked st = false ∧
  ∃ t t' acts,
    threads st !! tid = Some t ∧ enabled st t c = true ∧
    thread_step st t c = Some (t', acts) ∧
    st' = log tid acts
            (foldl (effect t) (set_threads (<[tid := t']> (threads st)) st) acts).
Proof.
  unfold step. destruct (panicked st); [done|]. intros H. split; [done|].
  destruct (threads st !! tid) as [t|] eqn:Ht; simpl in H; [|done].
  destruct (enabled st t c) eqn:Hen; [|done].
  destruct (thread_step st t c) as [[t' acts]|] eqn:Hts; simplify_eq/=.
  by eexists _, _, _.
Qed.

Lemma effects_size t acts : ∀ st,
  size (limit (foldl (effect t) st acts)) = size (limit st).
Proof.
  induction acts as [|a acts IH]; intros st; simpl; [done|].
  rewrite IH. destruct a; simpl; try done.
  unfold Release. by destruct (_ <? _)%Z.
Qed.

Lemma effects_cancel t acts : ∀ st,
  cancel (foldl (effect t) st acts) = cancel st.
Proof.
  induction acts as [|a acts IH]; intros st; simpl; [done|].
  rewrite IH. destruct a; simpl; try done. by case_match.
Qed.

Lemma effects_trace t acts : ∀ st,
  trace (foldl (effect t) st acts) = trace st.
Proof.
  induction acts as [|a acts IH]; intros st; simpl; [done|].
  rewrite IH. destruct a; simpl; try done. by case_match.
Qed.

Lemma effects_ctxs_length t acts : ∀ st,
  length (ctxs (foldl (effect t) st acts)) = length (ctxs st).
Proof.
  induction acts as [|a acts IH]; intros st; simpl; [done|].
  rewrite IH. destruct a; simpl; try done; [by case_match|].
  by rewrite length_insert.
Qed.

Lemma effects_ctxs_done t acts ctx : ∀ st,
  ctxs st !! ctx = Some true →
  ctxs (foldl (effect t) st acts) !! ctx = Some true.
Proof.
  induction acts as [|a acts IH]; intros st H; simpl; [done|].
  apply IH. destruct a; simpl; try done; [by case_match|].
  destruct (decide (ctx0 = ctx)) as [->|].
  - apply list_lookup_insert_eq. by eapply lookup_lt_Some.
  - by rewrite list_lookup_insert_ne.
Qed.

(** The calls of a step only start [ingest] goroutines, after the
    threads there are. *)
Lemma effects_threads t acts : ∀ st,
  ∃ new, threads (foldl (effect t) st acts) = threads st ++ new ∧
         Forall (λ t', ∃ h b k, t' = TIngest h (ILoad b k)) new.
Proof.
  induction acts as [|a acts IH]; intros st; simpl.
  - exists []. by rewrite app_nil_r.
  - destruct (IH (effect t st a)) as (new & -> & Hnew).
    destruct a; simpl; try (by exists new); [by case_match; exists new|].
    eexists (_ :: new). rewrite <- app_assoc. split; [done|].
    constructor; [by eexists _, _, _|done].
Qed.

Lemma own_app i tr1 tr2 : own i (tr1 ++ tr2) = own i tr1 ++ own i tr2.
Proof. unfold own. by rewrite filter_app, fmap_app. Qed.

Lemma own_self i (acts : list action) : own i ((i,.) <$> acts) = acts.
Proof.
  unfold own. induction acts as [|a acts IH]; [done|].
  rewrite fmap_cons, filter_cons_True by done. simpl. by f_equal.
Qed.

Lemma own_other i j (acts : list action) : i ≠ j → own i ((j,.) <$> acts) = [].
Proof.
  intros Hij. unfold own. induction acts as [|a acts IH]; [done|].
  rewrite fmap_cons, filter_cons_False; [done|]. simpl. congruence.
Qed.

Lemma own_fresh i tr : (∀ j a, (j, a) ∈ tr → j < i) → own i tr = [].
Proof.
  intros H. unfold own. induction tr as [|[j a] tr IH]; [done|].
  rewrite filter_cons_False.
  - apply IH. intros j' a' Hin. apply (H j' a'). by right.
  - simpl. specialize (H j a (list_elem_of_here _ _)). lia.
Qed.

Lemma total_held_app ts1 ts2 :
  total_held (ts1 ++ ts2) = (total_held ts1 + total_held ts2)%Z.
Proof. induction ts1 as [|t ts1 IH]; simpl; [done|]. rewrite IH. lia. Qed.

Lemma total_held_insert ts i t t' :
  ts !! i = Some t →
  total_held (<[i := t']> ts) = (total_held ts - held t + held t')%Z.
Proof.
  revert i. induction ts as [|t0 ts IH]; intros [|i] H; simplify_eq/=; [lia|].
  rewrite (IH i H). lia.
Qed.

(** Membership of a call in an explicit list of calls, by cases. *)
Ltac elems H :=
  repeat (apply elem_of_cons in H as [H|H]; [try by simplify_eq|]);
  try by apply not_elem_of_nil in H.

Ltac no_such_call :=
  let Hin := fresh "Hin" in
  split; [intros ? Hin|intros Hin]; elems Hin.

(** Only [Close] touches the cancel function. *)
Lemma thread_step_cancels st t c t' acts :
  thread_step st t c = Some (t', acts) →
  (∀ ctx, ACancel ctx ∈ acts → cancel st = Some ctx) ∧
  (ANilCancel ∈ acts → cancel st = None).
Proof.
  intros Hts.
  destruct t as [ctx h pc|h pc|pc]; simpl in Hts.
  - destruct (drain_step pc c) as [[pc' a]|] eqn:Hd; simplify_eq/=.
    destruct pc as [|[|ev rest]|b k rest|b k rest|], c as [| |[msg|] del|[|]|r];
      simplify_eq/=; try by no_such_call.
    + destruct (Body msg); simplify_eq/=; [|by no_such_call].
      unfold acknowledge in Hd.
      destruct (ReceiptHandle msg), del, (Unmarshal s);
        simplify_eq/=; by no_such_call.
    + destruct (url.QueryUnescape (Key ev)); simplify_eq/=; by no_such_call.
  - destruct (ingest_step h pc c) as [[pc' a]|] eqn:Hd; simplify_eq/=.
    destruct pc, c as [| |[msg|] del|[|]|[err|data']];
      simplify_eq/=; by no_such_call.
  - destruct (Close_step (cancel st) pc c) as [[pc' a]|] eqn:Hd; simplify_eq/=.
    destruct pc, c as [| |[msg|] del|[|]|r]; simplify_eq/=;
      try by no_such_call.
    destruct (cancel st) eqn:Hc; simplify_eq/=; by no_such_call.
Qed.

Lemma effects_panicked t acts : ∀ st,
  panicked st = true → panicked (foldl (effect t) st acts) = true.
Proof.
  induction acts as [|a acts IH]; intros st H; simpl; [done|].
  apply IH. destruct a; simpl; try done. by case_match.
Qed.

Lemma effects_nil_cancel t acts : ∀ st,
  ANilCancel ∈ acts → panicked (foldl (effect t) st acts) = true.
Proof.
  induction acts as [|a acts IH]; intros st H; simpl.
  - by apply not_elem_of_nil in H.
  - apply elem_of_cons in H as [<-|H]; [|by apply IH].
    by apply effects_panicked.
Qed.

Lemma effects_cancelled t acts ctx : ∀ st,
  ACancel ctx ∈ acts → ctx < length (ctxs st) →
  ctxs (foldl (effect t) st acts) !! ctx = Some true.
Proof.
  induction acts as [|a acts IH]; intros st H Hlt; simpl.
  - by apply not_elem_of_nil in H.
  - apply elem_of_cons in H as [<-|H].
    + apply effects_ctxs_done. simpl. by apply list_lookup_insert_eq.
    + apply IH; [done|].
      change (effect t st a) with (foldl (effect t) st [a]).
      by rewrite effects_ctxs_length.
Qed.

(** What [Close] has called so far follows its program counter. *)
Lemma Close_step_calls cancel pc c pc' acts h :
  Close_step cancel pc c = Some (pc', acts) →
  h ≠ [ANilCancel] → Close_calls pc h → Close_calls pc' (h ++ acts).
Proof.
  intros Hs Hnil Hc.
  destruct pc, c as [| |[msg|] del|[|]|r]; simplify_eq/=.
  - destruct Hc as [->|]; [|done].
    destruct cancel; simplify_eq/=; eauto.
  - destruct Hc as [ctx ->]. by exists ctx.
  - destruct Hc as [ctx ->]. by exists ctx.
Qed.

Lemma own_nil_cancel i tr : own i tr = [ANilCancel] → (i, ANilCancel) ∈ tr.
Proof.
  unfold own. intros H.
  assert (Hin : ANilCancel ∈ (filter (λ p, p.1 = i) tr).*2)
    by (rewrite H; apply list_elem_of_here).
  apply list_elem_of_fmap in Hin as ([j a] & Ha & Hin). simpl in Ha. subst a.
  apply list_elem_of_filter in Hin as [Hj Hin]. simpl in Hj. by subst j.
Qed.



(** ** The drain loop on one message *)

Lemma dispatched_acknowledge msg del : dispatched (acknowledge msg del).1 = [].
Proof. unfold acknowledge. by destruct (ReceiptHandle msg), del. Qed.

Lemma drain_recv_decoded msg del body evs :
  Body msg = Some body → Unmarshal body = inr evs →
  (acknowledge msg del).2 = None →
  drain_step DSelect (ChRecv (Some msg) del)
  = Some (DRange (Records evs), (acknowledge msg del).1 ++ [AUnmarshal body]).
Proof.
  intros Hb Hu Hack. simpl. rewrite Hb.
  destruct (acknowledge msg del) as [a o]. simpl in *. subst o. by rewrite Hu.
Qed.

Lemma locators_length rs :
  Forall (λ ev, ∃ key, url.QueryUnescape (Key ev) = inr key) rs →
  length (locators rs) = length rs.
Proof.
  induction 1 as [|ev rs [key Hkey] _ IH]; [done|].
  unfold locators in *. simpl. rewrite Hkey. simpl. by f_equal.
Qed.

(** C3 (amended): for a message that was acknowledged and whose body
    decodes to an envelope, when no acquire of the limiter is cancelled,
    the drain loop dispatches exactly one task per record whose key
    unescapes, in the order of the records, and none for the others; so
    exactly N tasks for N records when every key unescapes.  Such a run
    exists for every envelope. *)
Theorem drain_dispatches_decodable msg del body evs :
  Body msg = Some body → Unmarshal body = inr evs →
  (acknowledge msg del).2 = None →
  (∀ cs acts,
      Forall uncancelled cs →
      steps drain_step DSelect (ChRecv (Some msg) del :: cs) = Some (DSelect, acts) →
      dispatched acts = locators (Records evs) ∧
      (Forall (λ ev, ∃ key, url.QueryUnescape (Key ev) = inr key) (Records evs) →
       length (dispatched acts) = length (Records evs))) ∧
  ∃ cs acts,
    Forall uncancelled cs ∧
    steps drain_step DSelect (ChRecv (Some msg) del :: cs) = Some (DSelect, acts).
Proof.
  intros Hb Hu Hack.
  pose proof (drain_recv_decoded _ _ _ _ Hb Hu Hack) as Hrecv.
  split.
  - intros cs acts Hcs H.
    cbn [steps] in H. rewrite Hrecv in H. simpl in H.
    destruct (steps drain_step (DRange (Records evs)) cs) as [[pc a]|] eqn:Hs;
      simplify_eq/=.
    apply drain_range_run in Hs as ->; [|done].
    assert (Hd : dispatched (((acknowledge msg del).1 ++ [AUnmarshal body])
                               ++ Records evs ≫= record_calls)
                 = locators (Records evs)).
    { by rewrite !dispatched_app, dispatched_acknowledge,
        dispatched_record_calls. }
    split; [done|]. intros Hall. rewrite Hd. by apply locators_length.
  - eexists _, _. split; [apply (record_schedule_uncancelled (Records evs))|].
    cbn [steps]. rewrite Hrecv. simpl. by rewrite drain_range_schedule.
Qed.

(** C6 (amended): a non-nil message whose body does not decode, once
    acknowledged: the queue delete is issued exactly once, before the
    decoding, when the message has a receipt handle, and not at all when it
    has none; the decoding error is reported, no task is dispatched and the
    loop is back at its select for the next message. *)
Theorem drain_corrupt_body msg del body err :
  Body msg = Some body → Unmarshal body = inl err →
  (acknowledge msg del).2 = None →
  ∃ acts,
    drain_step DSelect (ChRecv (Some msg) del) = Some (DSelect, acts) ∧
    acts = match ReceiptHandle msg with
           | Some _ => [ADeleteMessage msg]
           | None => []
           end ++ [AUnmarshal body;
                   AError (Internal "sqs: unable to unmarshal" err)] ∧
    deletions acts = match ReceiptHandle msg with
                     | Some _ => [msg]
                     | None => []
                     end ∧
    dispatched acts = [].
Proof.
  intros Hb Hu Hack. simpl. rewrite Hb. unfold acknowledge in *.
  destruct (ReceiptHandle msg), del; simplify_eq/=; rewrite Hu;
    eexists; split_and!; done.
Qed.

(** C7: a record whose key does not unescape gets an error report and no
    task, and the loop goes on to the records after it, which it treats,
    under any schedule, as it would without that record.  With no acquire
    cancelled, the calls of the loop are those of the records before it, the
    report, and those of the records after it, so every sibling whose key
    unescapes gets its task. *)
Theorem drain_skips_bad_key rs1 bad rs2 err :
  url.QueryUnescape (Key bad) = inl err →
  drain_step (DRange (bad :: rs2)) ChTau
  = Some (DRange rs2, [AError (Internal "sqs: unable to unescape query" err)]) ∧
  (∀ cs,
      steps drain_step (DRange (bad :: rs2)) (ChTau :: cs)
      = prod_map id (cons (AError (Internal "sqs: unable to unescape query" err)))
          <$> steps drain_step (DRange rs2) cs) ∧
  (∀ cs acts,
      Forall uncancelled cs →
      steps drain_step (DRange (rs1 ++ bad :: rs2)) cs = Some (DSelect, acts) →
      acts = (rs1 ≫= record_calls)
               ++ [AError (Internal "sqs: unable to unescape query" err)]
               ++ (rs2 ≫= record_calls) ∧
      dispatched acts = locators rs1 ++ locators rs2) ∧
  ∃ cs acts,
    Forall uncancelled cs ∧
    steps drain_step (DRange (rs1 ++ bad :: rs2)) cs = Some (DSelect, acts).
Proof.
  intros Hbad. split; [by simpl; rewrite Hbad|]. split_and!.
  - intros cs. simpl. rewrite Hbad. simpl.
    by destruct (steps drain_step (DRange rs2) cs) as [[pc acts]|].
  - intros cs acts Hcs H. apply drain_range_run in H as ->; [|done].
    assert (record_calls bad
            = [AError (Internal "sqs: unable to unescape query" err)]) as Hcalls
      by (unfold record_calls; by rewrite Hbad).
    rewrite bind_app, bind_cons, Hcalls. split; [done|].
    by rewrite !dispatched_app, !dispatched_record_calls.
  - eexists _, _. split; [apply record_schedule_uncancelled|].
    apply drain_range_schedule.
Qed.

(** C9: the acknowledgement comes first.  For a non-nil message with a
    body, the queue delete is the first call of the drain loop and is made
    once when the message has a receipt handle; if it fails, its error is
    reported, the body is not decoded, no task is dispatched and the loop
    is back at its select; a message without a receipt handle is not
    deleted and goes on to the decoding. *)
Theorem acknowledge_first msg del body :
  Body msg = Some body →
  ∃ pc acts,
    drain_step DSelect (ChRecv (Some msg) del) = Some (pc, acts) ∧
    dispatched acts = [] ∧
    (∀ rh, ReceiptHandle msg = Some rh →
           ∃ rest, acts = ADeleteMessage msg :: rest ∧ deletions rest = []) ∧
    (∀ rh e, ReceiptHandle msg = Some rh → del = Some e →
             pc = DSelect ∧
             acts = [ADeleteMessage msg;
                     AError (Internal "sqs: unable to delete" e)]) ∧
    (ReceiptHandle msg = None →
     deletions acts = [] ∧ ∃ rest, acts = AUnmarshal body :: rest).
Proof.
  intros Hb. simpl. rewrite Hb. unfold acknowledge.
  destruct (ReceiptHandle msg), del, (Unmarshal body);
    eexists _, _; (split; [done|]); simpl;
    split_and!; try done; intros; simplify_eq; eauto.
Qed.

(** ** One fetch-and-handle task *)

(** One step back from the end of a run of [ingest]. *)
Ltac ingest_head H :=
  match type of H with
  | steps _ _ ?cs = _ =>
      let c := fresh "c" in
      let Hs := fresh "Hs" in
      destruct cs as [|c cs]; [by simplify_eq/=|];
      destruct c as [| |[?|] ?|[|]|[?|?]]; simpl in H; try done;
      match type of H with
      | context [steps ?f ?p cs] =>
          destruct (steps f p cs) as [[? ?]|] eqn:Hs; simplify_eq/=
      end
  end.

Lemma ingest_returned h cs pc acts :
  steps (ingest_step h) IDone cs = Some (pc, acts) → cs = [] ∧ acts = [].
Proof.
  destruct cs as [|c cs]; [by intros; simplify_eq/=|].
  by destruct c as [| |[?|] ?|[|]|[?|?]].
Qed.

Lemma ingest_returning h cs acts :
  steps (ingest_step h) IRelease cs = Some (IDone, acts) →
  cs = [ChTau; ChTau] ∧ acts = [ARelease 1; ADuration ctxTag "s3sqs"].
Proof.
  intros H. ingest_head H. ingest_head Hs.
  by apply ingest_returned in Hs0 as [-> ->].
Qed.

(** The two complete runs of a task. *)
Lemma ingest_runs h bucket key cs acts :
  steps (ingest_step h) (ILoad bucket key) cs = Some (IDone, acts) →
  (∃ err,
      cs = [ChLoad (inl err); ChTau; ChTau] ∧
      acts = [ALoad (locator bucket key);
              ACount1 ctxTag "s3readerror"; AError err;
              ARelease 1; ADuration ctxTag "s3sqs"]) ∨
  (∃ data,
      cs = [ChLoad (inr data); ChTau; ChTau; ChTau] ∧
      acts = [ALoad (locator bucket key);
              AHandler data (h data);
              ARelease 1; ADuration ctxTag "s3sqs"]).
Proof.
  intros H. ingest_head H.
  - left. apply ingest_returning in Hs as [-> ->]. by eexists.
  - right. ingest_head Hs. apply ingest_returning in Hs0 as [-> ->].
    by eexists.
Qed.

(** C8: a task run to its end.  When the fetch fails the failure counter
    is incremented once, the error is reported, the limiter unit is
    released and the handler is not called; when it succeeds the counter is
    not touched, the handler is called once with the payload, and the unit
    is released.  Whatever the fetch returns, the task runs to its end. *)
Theorem ingest_outcomes h bucket key :
  (∀ r, ∃ cs acts,
      steps (ingest_step h) (ILoad bucket key) (ChLoad r :: cs) = Some (IDone, acts)) ∧
  (∀ cs acts,
      steps (ingest_step h) (ILoad bucket key) cs = Some (IDone, acts) →
      (∃ err,
          cs = [ChLoad (inl err); ChTau; ChTau] ∧
          acts = [ALoad (locator bucket key);
                  ACount1 ctxTag "s3readerror"; AError err;
                  ARelease 1; ADuration ctxTag "s3sqs"]) ∨
      (∃ data,
          cs = [ChLoad (inr data); ChTau; ChTau; ChTau] ∧
          acts = [ALoad (locator bucket key);
                  AHandler data (h data);
                  ARelease 1; ADuration ctxTag "s3sqs"])).
Proof.
  split; [|apply ingest_runs].
  intros [err|data].
  - by eexists [ChTau; ChTau], _.
  - by eexists [ChTau; ChTau; ChTau], _.
Qed.

(** ** Keys and locators *)

Lemma step_go st tid ctx h bucket key rest :
  panicked st = false →
  threads st !! tid = Some (TDrain ctx h (DGo bucket key rest)) →
  ∃ st', step st (LStep tid ChTau) = Some st' ∧
         threads st' = <[tid := TDrain ctx h (DRange rest)]> (threads st)
                         ++ [TIngest h (ILoad bucket key)].
Proof.
  intros Hp Ht. unfold step. rewrite Hp, Ht. simpl. by eexists.
Qed.

(** C10: the key of a record goes through query unescaping: every escape
    [%XY] becomes the byte [XY] and every '+' becomes a space, so that a
    raw key with a '+' gives a key with a space in its place; the task is
    started on the bucket and that key, and the string it hands to the
    downloader is "s3://", the bucket, "/" and that key. *)
Theorem key_is_query_unescaped ev rest key :
  url.QueryUnescape (Key ev) = inr key →
  url.unescapes (Key ev) key ∧
  (∀ k1 k2, Key ev = k1 +:+ String "+" k2 →
            ∃ t1 t2, key = t1 +:+ String " " t2 ∧
                     url.unescapes k1 t1 ∧ url.unescapes k2 t2) ∧
  steps drain_step (DRange (ev :: rest)) [ChTau; ChAcquire true; ChTau]
  = Some (DRange rest, [AAcquire 1; AGo (Name ev) key]) ∧
  (∀ st tid ctx h,
      panicked st = false →
      threads st !! tid = Some (TDrain ctx h (DGo (Name ev) key rest)) →
      ∃ st', step st (LStep tid ChTau) = Some st' ∧
             threads st' = <[tid := TDrain ctx h (DRange rest)]> (threads st)
                             ++ [TIngest h (ILoad (Name ev) key)]) ∧
  (∀ h r, ∃ pc acts,
      ingest_step h (ILoad (Name ev) key) (ChLoad r)
      = Some (pc, ALoad ("s3://" +:+ Name ev +:+ "/" +:+ key) :: acts)).
Proof.
  intros Hkey. split_and!.
  - by apply url_QueryUnescape_spec.
  - intros k1 k2 Hk. apply url_unescapes_plus_split.
    rewrite <- Hk. by apply url_QueryUnescape_spec.
  - simpl. by rewrite Hkey.
  - intros st tid ctx h. apply step_go.
  - intros h [err|data]; by eexists _, _.
Qed.

(** ** What the handler returns *)

Lemma thread_step_erase st t c :
  thread_step (erase st) (erase_thread t) c
  = prod_map erase_thread (fmap (M := list) erase_action) <$> thread_step st t c.
Proof.
  destruct t as [ctx h pc|h pc|pc]; simpl.
  - destruct pc as [|[|ev rest]|b k rest|b k rest|], c as [| |[msg|] del|[|]|r];
      simpl; try done.
    + destruct (Body msg); simpl; [|done]. unfold acknowledge.
      by destruct (ReceiptHandle msg), del, (Unmarshal s).
    + by destruct (url.QueryUnescape (Key ev)).
  - by destruct pc, c as [| |[msg|] del|[|]|[err|data']].
  - destruct pc, c as [| |[msg|] del|[|]|r]; simpl; try done.
    by destruct (cancel st).
Qed.

Lemma enabled_erase st t c : enabled (erase st) (erase_thread t) c = enabled st t c.
Proof. by destruct t as [ctx h []|h pc|[]], c as [| |[msg|] del|[|]|r]. Qed.

Lemma effect_erase t st a :
  erase (effect t st a) = effect (erase_thread t) (erase st) (erase_action a).
Proof.
  destruct a; simpl; try done.
  - by destruct (Release (limit st) n).
  - unfold erase. simpl. rewrite fmap_app. by destruct t.
Qed.

Lemma effects_erase t acts : ∀ st,
  erase (foldl (effect t) st acts)
  = foldl (effect (erase_thread t)) (erase st) (erase_action <$> acts).
Proof.
  induction acts as [|a acts IH]; intros st; simpl; [done|].
  by rewrite IH, effect_erase.
Qed.

Lemma log_erase tid acts st :
  erase (log tid acts st) = log tid (erase_action <$> acts) (erase st).
Proof.
  unfold erase, log. simpl. f_equal.
  rewrite fmap_app. f_equal. rewrite <- !list_fmap_compose.
  by apply list_fmap_ext.
Qed.

(** The program with the handlers erased takes the same steps. *)
Lemma step_erase st l : step (erase st) (erase_label l) = erase <$> step st l.
Proof.
  unfold step. simpl. destruct (panicked st); [done|].
  destruct l as [f| |tid c]; simpl.
  - unfold Range, erase. simpl. rewrite !fmap_app, length_fmap. done.
  - unfold erase. simpl. by rewrite fmap_app.
  - rewrite list_lookup_fmap. destruct (threads st !! tid) as [t|]; simpl; [|done].
    rewrite enabled_erase. destruct (enabled st t c); [|done].
    rewrite thread_step_erase.
    destruct (thread_step st t c) as [[t' acts]|]; simpl; [|done].
    rewrite log_erase, effects_erase. do 3 f_equal.
    unfold erase. simpl. by rewrite list_fmap_insert.
Qed.

Lemma run_erase ls : ∀ st,
  run (erase st) (erase_label <$> ls) = erase <$> run st ls.
Proof.
  induction ls as [|l ls IH]; intros st; simpl; [done|].
  rewrite step_erase. destruct (step st l) as [st'|]; simpl; [|done].
  apply IH.
Qed.

(** C4: the handler is called with the payload of every object that was
    fetched, and what it returns changes nothing: two executions under the
    same schedule, whose handlers may return different booleans, go through
    the same program points of every thread, the same limiter states and
    the same calls, up to the handlers themselves and the boolean recorded
    with each handler call; after the handler call the task goes on to
    release its unit. *)
Theorem handler_result_ignored ls1 ls2 :
  erase_label <$> ls1 = erase_label <$> ls2 →
  erase <$> run NewWith ls1 = erase <$> run NewWith ls2 ∧
  (∀ h bucket key data,
      steps (ingest_step h) (ILoad bucket key) [ChLoad (inr data); ChTau]
      = Some (IRelease, [ALoad (locator bucket key); AHandler data (h data)])).
Proof.
  intros Hls. split; [|done].
  rewrite <- !run_erase. by rewrite Hls.
Qed.

(** ** [Close] before [Range] *)

Lemma step_keeps_cancel st l st' :
  (∀ f, l ≠ LRange f) → step st l = Some st' → cancel st' = cancel st.
Proof.
  intros Hl H. destruct l as [f| |tid c].
  - by destruct (Hl f).
  - unfold step in H. by destruct (panicked st); simplify_eq.
  - apply step_LStep in H as (_ & t & t' & acts & _ & _ & _ & ->).
    simpl. by rewrite effects_cancel.
Qed.

Lemma run_keeps_cancel ls : ∀ st st',
  (∀ f, LRange f ∉ ls) → run st ls = Some st' → cancel st' = cancel st.
Proof.
  induction ls as [|l ls IH]; intros st st' Hls H; simpl in H; [by simplify_eq|].
  destruct (step st l) as [st1|] eqn:Hs; simplify_eq/=.
  rewrite (IH st1 st'); [| |done].
  - apply (step_keeps_cancel _ _ _) in Hs; [done|].
    intros f ->. apply (Hls f). by left.
  - intros f Hin. apply (Hls f). by right.
Qed.

(** Without a [Range] there is no goroutine, only callers of [Close] at
    their first statement, and the limiter is untouched. *)
Lemma unstarted_step st l st' :
  (∀ f, l ≠ LRange f) →
  cancel st = None → limit st = NewWeighted concurrency →
  Forall (λ t, t = TClose CCancel) (threads st) →
  step st l = Some st' →
  limit st' = NewWeighted concurrency ∧
  Forall (λ t, t = TClose CCancel) (threads st').
Proof.
  intros Hl Hc Hlim Hts H. destruct l as [f| |tid c].
  - by destruct (Hl f).
  - unfold step in H. destruct (panicked st); simplify_eq/=.
    split; [done|]. apply Forall_app. by split; [|constructor].
  - apply step_LStep in H as (_ & t & t' & acts & Ht & _ & Hstep & ->).
    rewrite Forall_forall in Hts.
    rewrite (Hts t) in Hstep, Ht by by eapply list_elem_of_lookup_2.
    simpl in Hstep. rewrite Hc in Hstep.
    destruct c as [| |[msg|] del|[|]|r]; simplify_eq/=.
    split; [done|]. rewrite list_insert_id by done. by apply Forall_forall.
Qed.

Lemma unstarted_run ls : ∀ st st',
  (∀ f, LRange f ∉ ls) →
  cancel st = None → limit st = NewWeighted concurrency →
  Forall (λ t, t = TClose CCancel) (threads st) →
  run st ls = Some st' →
  limit st' = NewWeighted concurrency.
Proof.
  induction ls as [|l ls IH]; intros st st' Hls Hc Hlim Hts H; simpl in H;
    [by simplify_eq|].
  destruct (step st l) as [st1|] eqn:Hs; simplify_eq/=.
  assert (Hl : ∀ f, l ≠ LRange f) by (intros f ->; apply (Hls f); by left).
  destruct (unstarted_step _ _ _ Hl Hc Hlim Hts Hs) as [Hlim1 Hts1].
  apply (IH st1 st'); try done.
  - intros f Hin. apply (Hls f). by right.
  - by rewrite (step_keeps_cancel _ _ _ Hl Hs).
Qed.

(** With a cancel function and the whole limiter free, [Close] runs through
    its three statements. *)
Lemma Close_completes st i ctx :
  panicked st = false → cancel st = Some ctx →
  threads st !! i = Some (TClose CCancel) →
  can_acquire (limit st) concurrency = true →
  ∃ st',
    run st [LStep i ChTau; LStep i ChTau; LStep i (ChAcquire true)] = Some st' ∧
    threads st' = <[i := TClose CReturned]> (threads st) ∧
    trace st' = trace st ++ [(i, ACancel ctx); (i, ASqsClose);
                             (i, AAcquire concurrency)] ∧
    panicked st' = false.
Proof.
  intros Hp Hc Hi Hfree. pose proof (lookup_lt_Some _ _ _ Hi) as Hlt.
  unfold run, step. rewrite Hp, Hi. simpl. rewrite Hc. simpl. rewrite Hp.
  rewrite list_lookup_insert_eq by done. simpl. rewrite Hp.
  rewrite list_lookup_insert_eq by by rewrite length_insert.
  simpl. rewrite Hfree. simpl. eexists. split; [done|]. simpl.
  rewrite !list_insert_insert_eq, <- !app_assoc. by split_and!.
Qed.

(** C5 (amended): [Close] on an orchestrator on which [Range] was never
    called faults at its first statement, the call of the cancel function,
    which is nil: nothing is cancelled, the queue is not closed, the limiter
    is not acquired and the process stops there, although no unit is held
    and the acquire of the whole limiter would not block.  Once [Range] has
    set the cancel function, a [Close] that finds the limiter free gets
    through: the context is cancelled, the queue closed and the whole
    limiter acquired. *)
Theorem Close_before_Range_panics ls st i :
  (∀ f, LRange f ∉ ls) →
  run NewWith ls = Some st →
  panicked st = false →
  threads st !! i = Some (TClose CCancel) →
  (∃ st', step st (LStep i ChTau) = Some st' ∧
          panicked st' = true ∧
          trace st' = trace st ++ [(i, ANilCancel)] ∧
          limit st' = limit st ∧ ctxs st' = ctxs st ∧
          threads st' !! i = Some (TClose CCancel) ∧
          ∀ l, step st' l = None) ∧
  cur (limit st) = 0%Z ∧
  can_acquire (limit st) concurrency = true ∧
  (∀ st1 j ctx,
      panicked st1 = false → cancel st1 = Some ctx →
      threads st1 !! j = Some (TClose CCancel) →
      can_acquire (limit st1) concurrency = true →
      ∃ st',
        run st1 [LStep j ChTau; LStep j ChTau; LStep j (ChAcquire true)]
        = Some st' ∧
        threads st' = <[j := TClose CReturned]> (threads st1) ∧
        trace st' = trace st1 ++ [(j, ACancel ctx); (j, ASqsClose);
                                  (j, AAcquire concurrency)] ∧
        panicked st' = false).
Proof.
  intros Hls Hrun Hp Hi.
  assert (Hlim : limit st = NewWeighted concurrency).
  { by apply (unstarted_run ls NewWith st). }
  split_and!.
  - apply run_keeps_cancel in Hrun; [|done]. simpl in Hrun.
    unfold step. rewrite Hp, Hi. simpl. rewrite Hrun. simpl.
    eexists. split; [done|]. simpl. split_and!; try done.
    apply list_lookup_insert_eq. by eapply lookup_lt_Some.
  - by rewrite Hlim.
  - rewrite Hlim. unfold can_acquire. simpl. apply Z.leb_le. lia.
  - intros st1 j ctx. apply Close_completes.
Qed.

(** ** Once [Close] has returned *)

Lemma run_app ls1 : ∀ ls2 st,
  run st (ls1 ++ ls2) = st' ← run st ls1; run st' ls2.
Proof.
  induction ls1 as [|l ls1 IH]; intros ls2 st; simpl; [done|].
  destruct (step st l) as [st1|]; simpl; [apply IH|done].
Qed.

Lemma returned_step st l st' i :
  step st l = Some st' →
  threads st !! i = Some (TClose CReturned) →
  threads st' !! i = Some (TClose CReturned).
Proof.
  intros H Hi. destruct l as [f| |tid c].
  - unfold step in H. destruct (panicked st); simplify_eq/=.
    by apply lookup_app_l_Some.
  - unfold step in H. destruct (panicked st); simplify_eq/=.
    by apply lookup_app_l_Some.
  - apply step_LStep in H as (_ & t & t' & acts & Ht & _ & Hts & ->).
    destruct (effects_threads t acts
                (set_threads (<[tid := t']> (threads st)) st))
      as (new & Hnew & _).
    simpl. rewrite Hnew. simpl. apply lookup_app_l_Some.
    destruct (decide (tid = i)) as [->|Hne].
    + by simplify_eq/=.
    + by rewrite list_lookup_insert_ne.
Qed.

Lemma returned_run ls : ∀ st st' i,
  run st ls = Some st' →
  threads st !! i = Some (TClose CReturned) →
  threads st' !! i = Some (TClose CReturned).
Proof.
  induction ls as [|l ls IH]; intros st st' i H Hi; simpl in H;
    [by simplify_eq|].
  destruct (step st l) as [st1|] eqn:Hs; simplify_eq/=.
  eauto using returned_step.
Qed.

(** ** More on keys and locators *)

Lemma url_check_plain s : ∀ n p, plain s = true → url.check s n p = inr (n, p).
Proof.
  induction s as [|c rest IH]; intros n p H; simpl in *; [done|].
  destruct (Ascii.eqb c "%"); [done|].
  destruct (Ascii.eqb c "+"); [done|]. by apply IH.
Qed.

Lemma url_build_length s : String.length (url.build s) ≤ String.length s.
Proof.
  remember (String.length s) as len eqn:Hlen.
  revert s Hlen. induction len as [len IH] using lt_wf_ind.
  intros [|c rest] ->; simpl; [done|].
  destruct (Ascii.eqb c "%").
  - destruct rest as [|h1 [|h2 rest']]; simpl; try lia.
    specialize (IH (String.length rest') ltac:(simpl; lia) rest' eq_refl). lia.
  - specialize (IH (String.length rest) ltac:(simpl; lia) rest eq_refl).
    destruct (Ascii.eqb c "+"); simpl; lia.
Qed.

(** The second pass changes every key that is not plain. *)
Lemma url_build_fixed s : url.build s = s → plain s = true.
Proof.
  induction s as [|c rest IH]; simpl; [done|].
  destruct (Ascii.eqb_spec c "%") as [->|Hpct]; simpl.
  - destruct rest as [|h1 [|h2 rest']]; try done.
    intros H%(f_equal String.length). simpl in H.
    pose proof (url_build_length rest'). lia.
  - destruct (Ascii.eqb_spec c "+") as [->|Hplus]; simpl; [done|].
    intros H. apply IH. congruence.
Qed.

(** X1: a key comes out of [url.QueryUnescape] as it went in exactly when it
    has no '%' and no '+'; the drain loop then asks for a limiter unit for
    the bucket and the raw key. *)
Theorem key_unchanged_iff_plain s :
  (url.QueryUnescape s = inr s ↔ plain s = true) ∧
  ∀ ev rest, Key ev = s → plain s = true →
    drain_step (DRange (ev :: rest)) ChTau
    = Some (DAcquire (Name ev) (Key ev) rest, []).
Proof.
  assert (Hiff : url.QueryUnescape s = inr s ↔ plain s = true).
  { unfold url.QueryUnescape. split.
    - destruct (url.check s 0 false) as [e|[n p]] eqn:Hc; [done|].
      destruct (Nat.eqb_spec n 0) as [->|]; destruct p; simpl;
        try (intros [= H]; by apply url_build_fixed).
      intros _. apply url_build_fixed. by eapply url_build_plain.
    - intros H. by rewrite (url_check_plain s 0 false H). }
  split; [done|]. intros ev rest <- Hplain. simpl.
  by rewrite (proj2 Hiff Hplain).
Qed.

Lemma url_unescapes_length s t :
  url.unescapes s t → String.length t + 2 * percents s = String.length s.
Proof.
  induction 1 as [|h1 h2 s t H1 H2 _ IH|s t _ IH|c s t Hpct Hplus _ IH]; simpl.
  - done.
  - replace (Ascii.eqb h1 "%") with false
      by (symmetry; apply Ascii.eqb_neq; by intros ->).
    replace (Ascii.eqb h2 "%") with false
      by (symmetry; apply Ascii.eqb_neq; by intros ->).
    lia.
  - lia.
  - destruct (Ascii.eqb_spec c "%"); [done|]. lia.
Qed.

(** X2: the key the drain loop asks a limiter unit for is the key of the
    record shortened by two bytes for each '%' it has; it is never longer
    than the key of the record. *)
Theorem key_unescaped_length ev rest bucket key acts :
  drain_step (DRange (ev :: rest)) ChTau
  = Some (DAcquire bucket key rest, acts) →
  String.length key + 2 * percents (Key ev) = String.length (Key ev) ∧
  String.length key ≤ String.length (Key ev).
Proof.
  simpl. destruct (url.QueryUnescape (Key ev)) as [e|key'] eqn:Hkey; [done|].
  intros [= _ <- _].
  apply url_QueryUnescape_spec, url_unescapes_length in Hkey. lia.
Qed.

Lemma url_unescapes_app s1 t1 s2 t2 :
  url.unescapes s1 t1 → url.unescapes s2 t2 →
  url.unescapes (s1 +:+ s2) (t1 +:+ t2).
Proof.
  induction 1; intros H2; rewrite ?append_cons, ?append_nil_l;
    [done|constructor; auto..].
Qed.

(** X3: keys unescape piece by piece: when two strings unescape, so does
    the one after the other, to the two results one after the other. *)
Theorem key_unescape_concat s1 t1 s2 t2 :
  url.QueryUnescape s1 = inr t1 → url.QueryUnescape s2 = inr t2 →
  url.QueryUnescape (s1 +:+ s2) = inr (t1 +:+ t2).
Proof.
  rewrite !url_QueryUnescape_spec. apply url_unescapes_app.
Qed.

Lemma url_check_error s : ∀ n p e,
  url.check s n p = inl e →
  ∃ s1 t1 rest,
    s = s1 +:+ String "%" rest ∧ url.unescapes s1 t1 ∧ malformed rest ∧
    e = EscapeError (url.first3 (String "%" rest)).
Proof.
  remember (String.length s) as len eqn:Hlen.
  revert s Hlen. induction len as [len IH] using lt_wf_ind.
  intros [|c rest] Hlen n p e H; simpl in *; [done|].
  destruct (Ascii.eqb_spec c "%") as [->|Hpct].
  - destruct rest as [|h1 [|h2 rest']].
    + simplify_eq. by exists EmptyString, EmptyString, EmptyString; split_and!; try constructor.
    + simplify_eq.
      by exists EmptyString, EmptyString, (String h1 EmptyString);
        split_and!; try constructor.
    + destruct (url.ishex h1) eqn:H1, (url.ishex h2) eqn:H2; simpl in H;
        try (simplify_eq;
             exists EmptyString, EmptyString, (String h1 (String h2 rest'));
             split_and!; [done|constructor|by simpl; rewrite H1, H2|done]).
      simpl in Hlen.
      destruct (IH (String.length rest') ltac:(lia) rest' eq_refl _ _ _ H)
        as (s1 & t1 & r & -> & Hu & Hm & ->).
      eexists (String "%" (String h1 (String h2 s1))), _, r.
      split_and!; [done|by constructor|done|done].
  - simpl in Hlen.
    destruct (Ascii.eqb_spec c "+") as [->|Hplus];
      destruct (IH (String.length rest) ltac:(lia) rest eq_refl _ _ _ H)
        as (s1 & t1 & r & -> & Hu & Hm & ->);
      eexists (String _ s1), _, r;
      (split_and!; [done|by constructor|done|done]).
Qed.

Lemma url_check_malformed s1 t1 rest :
  url.unescapes s1 t1 → malformed rest →
  ∀ n p, url.check (s1 +:+ String "%" rest) n p
         = inl (EscapeError (url.first3 (String "%" rest))).
Proof.
  intros Hu Hm.
  induction Hu as [|h1 h2 s t H1 H2 _ IH|s t _ IH|c s t Hpct Hplus _ IH];
    intros n p; rewrite ?append_cons, ?append_nil_l.
  - destruct rest as [|h1 [|h2 rest']]; simpl in *; try done. by rewrite Hm.
  - simpl. rewrite H1, H2. simpl. apply IH.
  - simpl. apply IH.
  - simpl. destruct (Ascii.eqb_spec c "%"); [done|].
    destruct (Ascii.eqb_spec c "+"); [done|]. apply IH.
Qed.

Lemma url_QueryUnescape_error s e :
  url.QueryUnescape s = inl e ↔
  ∃ s1 t1 rest,
    s = s1 +:+ String "%" rest ∧ url.unescapes s1 t1 ∧ malformed rest ∧
    e = EscapeError (url.first3 (String "%" rest)).
Proof.
  unfold url.QueryUnescape. split.
  - destruct (url.check s 0 false) as [e'|[n p]] eqn:Hc.
    + intros [= <-]. by eapply url_check_error.
    + by destruct (Nat.eqb n 0 && negb p).
  - intros (s1 & t1 & rest & -> & Hu & Hm & ->).
    by rewrite (url_check_malformed _ _ _ Hu Hm).
Qed.

(** X4: the drain loop reports a record and passes it over exactly when
    its key has, after a part that unescapes, a '%' not followed by two
    hexadecimal digits; the error reported wraps the [EscapeError] of the
    first such '%' with the two bytes after it, as far as there are any. *)
Theorem key_escape_error ev rest e :
  drain_step (DRange (ev :: rest)) ChTau
  = Some (DRange rest, [AError (Internal "sqs: unable to unescape query" e)]) ↔
  ∃ s1 t1 tail,
    Key ev = s1 +:+ String "%" tail ∧ url.unescapes s1 t1 ∧ malformed tail ∧
    e = EscapeError (url.first3 (String "%" tail)).
Proof.
  rewrite <- url_QueryUnescape_error. simpl.
  destruct (url.QueryUnescape (Key ev)) as [e'|key]; [|done].
  split; intros [= ->]; done.
Qed.

Lemma slash_split b : ∀ b' k k',
  slash_free b = true → slash_free b' = true →
  b +:+ String "/" k = b' +:+ String "/" k' → b = b' ∧ k = k'.
Proof.
  induction b as [|c b IH]; intros [|c' b'] k k' Hb Hb';
    rewrite ?append_cons, ?append_nil_l; intros H; simplify_eq/=; try done.
  apply andb_prop in Hb as [_ Hb]. apply andb_prop in Hb' as [_ Hb'].
  by destruct (IH b' k k' Hb Hb') as [-> ->].
Qed.

(** X5: for bucket names without '/', the string handed to the downloader
    names one bucket and one key: two tasks ask for the same locator only
    when they were started for the same bucket and the same key. *)
Theorem locator_injective bucket key bucket' key' :
  slash_free bucket = true → slash_free bucket' = true →
  locator bucket key = locator bucket' key' →
  bucket = bucket' ∧ key = key'.
Proof.
  intros Hb Hb'. unfold locator. rewrite !append_cons, !append_nil_l.
  intros [= H]. by apply slash_split.
Qed.

(** ** The for-range loop under any schedule *)

Lemma drain_select_loop cs pc acts :
  Forall loop_choice cs →
  steps drain_step DSelect cs = Some (pc, acts) → cs = [] ∧ acts = [].
Proof.
  intros Hcs H.
  destruct Hcs as [|c cs [->|[ok ->]] _]; simpl in H; by simplify_eq.
Qed.

(** X6: whatever the limiter and the cancellation do, a pass of the
    for-range loop over an envelope starts tasks only for records of the
    envelope whose key unescapes, each at most once and in their order;
    it reports exactly the keys that do not unescape, cancelled acquires
    being passed over in silence; it deletes nothing; and when every acquire
    fails it starts no task at all. *)
Theorem drain_range_any_schedule rs : ∀ cs acts,
  Forall loop_choice cs →
  steps drain_step (DRange rs) cs = Some (DSelect, acts) →
  dispatched acts `sublist_of` locators rs ∧
  reported acts = key_errors rs ∧
  deletions acts = [] ∧
  (Forall (λ c, c ≠ ChAcquire true) cs → dispatched acts = []).
Proof.
  induction rs as [|ev rs IH]; intros cs acts Hcs H.
  - destruct Hcs as [|c cs [->|[ok ->]] Hcs]; simpl in H; simplify_eq.
    destruct (steps drain_step DSelect cs) as [[pc a]|] eqn:Hs; simplify_eq/=.
    by apply drain_select_loop in Hs as [_ ->].
  - destruct Hcs as [|c cs [->|[ok ->]] Hcs]; simpl in H; simplify_eq.
    unfold locators, key_errors. simpl.
    destruct (url.QueryUnescape (Key ev)) as [err|key]; simpl in H.
    + destruct (steps drain_step (DRange rs) cs) as [[pc a]|] eqn:Hs;
        simplify_eq/=.
      destruct (IH _ _ Hcs Hs) as (Hsub & Hrep & Hdel & Hnone).
      split_and!; [done|by f_equal|done|].
      intros Hall. apply Hnone. by inversion Hall.
    + destruct Hcs as [|c cs [->|[[|] ->]] Hcs]; simpl in H; simplify_eq.
      * destruct Hcs as [|c cs [->|[ok ->]] Hcs]; simpl in H; simplify_eq.
        destruct (steps drain_step (DRange rs) cs) as [[pc a]|] eqn:Hs;
          simplify_eq/=.
        destruct (IH _ _ Hcs Hs) as (Hsub & Hrep & Hdel & Hnone).
        split_and!; [by constructor|done|done|].
        intros Hall. inversion Hall as [|? ? _ Hall']. by inversion Hall'.
      * destruct (steps drain_step (DRange rs) cs) as [[pc a]|] eqn:Hs;
          simplify_eq/=.
        destruct (IH _ _ Hcs Hs) as (Hsub & Hrep & Hdel & Hnone).
        split_and!; [by constructor|done|done|].
        intros Hall. apply Hnone. inversion Hall as [|? ? _ Hall'].
        by inversion Hall'.
Qed.

(** ** The calls of an execution *)

(** By cases on the thread, its program point and the outcome of its
    blocking call. *)
Ltac thread_cases t c :=
  destruct t as [? ? [|[|? ?]|? ? ?|? ? ?|]|? [? ?|?| | |]|[| | |]],
           c as [| |[?|] ?|[|]|[?|?]];
  simpl; unfold acknowledge; repeat case_match; simpl; intros; simplify_eq/=.

Lemma untag (tid : nat) (acts : list action) : ((tid,.) <$> acts).*2 = acts.
Proof. induction acts as [|a acts IH]; [done|]. simpl. by f_equal. Qed.

(** What a step adds to the trace. *)
Lemma step_trace st l st' :
  step st l = Some st' →
  (∃ f, l = LRange f ∧
        trace st' = trace st ++ [(length (threads st), AStartPolling)]) ∨
  (l = LClose ∧ trace st' = trace st) ∨
  (∃ tid c t t' acts,
      l = LStep tid c ∧ threads st !! tid = Some t ∧
      thread_step st t c = Some (t', acts) ∧
      trace st' = trace st ++ ((tid,.) <$> acts)).
Proof.
  intros H. destruct l as [f| |tid c].
  - unfold step in H. destruct (panicked st); simplify_eq/=. left. by eexists.
  - unfold step in H. destruct (panicked st); simplify_eq/=. right. by left.
  - apply step_LStep in H as (_ & t & t' & acts & Ht & _ & Hts & ->).
    right. right. eexists _, _, _, _, _. split_and!; try done.
    simpl. by rewrite effects_trace.
Qed.

Lemma thread_step_deletes st t c t' acts :
  thread_step st t c = Some (t', acts) →
  (∀ m, ADeleteMessage m ∈ acts →
        is_Some (Body m) ∧ is_Some (ReceiptHandle m) ∧
        ∃ del, c = ChRecv (Some m) del) ∧
  length (deletions acts) ≤ receives [LStep 0 c].
Proof.
  revert t' acts. thread_cases t c;
    (split; [intros m' Hin; elems Hin|simpl; lia]).
  all: simplify_eq; split_and!; eauto.
Qed.

Lemma receives_app ls1 ls2 : receives (ls1 ++ ls2) = receives ls1 + receives ls2.
Proof.
  induction ls1 as [|[| |tid [| |[m|] del| |]] ls1 IH]; simpl; lia.
Qed.

Lemma deletions_app a b : deletions (a ++ b) = deletions a ++ deletions b.
Proof. apply omap_app. Qed.

Lemma run_deletes ls : ∀ st st',
  run st ls = Some st' →
  (∀ j m, (j, ADeleteMessage m) ∈ trace st' →
          (j, ADeleteMessage m) ∈ trace st ∨
          is_Some (Body m) ∧ is_Some (ReceiptHandle m) ∧
          ∃ del, LStep j (ChRecv (Some m) del) ∈ ls) ∧
  length (deletions (calls st')) ≤ length (deletions (calls st)) + receives ls.
Proof.
  induction ls as [|l ls IH]; intros st st' H; simpl in H.
  - simplify_eq. split; [by left|simpl; lia].
  - destruct (step st l) as [st1|] eqn:Hs; simplify_eq/=.
    destruct (IH _ _ H) as [Horigin Hcount].
    assert (Hstep :
      (∀ j m, (j, ADeleteMessage m) ∈ trace st1 →
              (j, ADeleteMessage m) ∈ trace st ∨
              is_Some (Body m) ∧ is_Some (ReceiptHandle m) ∧
              ∃ del, l = LStep j (ChRecv (Some m) del)) ∧
      length (deletions (calls st1))
      ≤ length (deletions (calls st)) + receives [l]).
    { unfold calls.
      destruct (step_trace _ _ _ Hs)
        as [(f & -> & ->)|[[-> ->]|(tid & c & t & t' & acts & -> & _ & Hts & ->)]].
      - split; [|rewrite fmap_app, deletions_app, length_app; simpl; lia].
        intros j m [Hin|Hin]%elem_of_app; [by left|].
        apply list_elem_of_singleton in Hin. simplify_eq.
      - split; [by left|simpl; lia].
      - destruct (thread_step_deletes _ _ _ _ _ Hts) as [Horig Hlen].
        split.
        + intros j m [Hin|Hin]%elem_of_app; [by left|].
          apply list_elem_of_fmap in Hin as (a & ? & Hin). simplify_eq.
          destruct (Horig _ Hin) as (? & ? & del & ->). right. eauto.
        + rewrite fmap_app, deletions_app, length_app, untag.
          simpl in *. destruct c as [| |[?|] ?| |]; simpl in *; lia. }
    destruct Hstep as [Horigin1 Hcount1]. split.
    + intros j m Hin. destruct (Horigin _ _ Hin) as [Hin1|(? & ? & del & ?)].
      * destruct (Horigin1 _ _ Hin1) as [?|(? & ? & del & ->)]; [by left|].
        right. split_and!; try done. exists del. by left.
      * right. split_and!; try done. exists del. by right.
    + pose proof (receives_app [l] ls) as Happ.
      simpl in Happ, Hcount1. lia.
Qed.

(** X7: in every execution the queue delete is only ever called by a drain
    loop on a message it has just received, with a body and a receipt
    handle; and there are at most as many deletes as messages received. *)
Theorem delete_only_received ls st :
  run NewWith ls = Some st →
  (∀ j m, (j, ADeleteMessage m) ∈ trace st →
          is_Some (Body m) ∧ is_Some (ReceiptHandle m) ∧
          ∃ del, LStep j (ChRecv (Some m) del) ∈ ls) ∧
  length (deletions (calls st)) ≤ receives ls.
Proof.
  intros [Horigin Hcount]%run_deletes. split; [|done].
  intros j m Hin. destruct (Horigin _ _ Hin) as [Hnil|?]; [|done].
  by apply not_elem_of_nil in Hnil.
Qed.

Lemma thread_step_counted st t c t' acts :
  thread_step st t c = Some (t', acts) →
  counted acts = replicate (failed_loads [LStep 0 c]) (ctxTag, "s3readerror").
Proof. revert t' acts. by thread_cases t c. Qed.

Lemma failed_loads_app ls1 ls2 :
  failed_loads (ls1 ++ ls2) = failed_loads ls1 + failed_loads ls2.
Proof.
  induction ls1 as [|[| |tid [| | | |[|]]] ls1 IH]; simpl; lia.
Qed.

Lemma run_counted ls : ∀ st st',
  run st ls = Some st' →
  counted (calls st')
  = counted (calls st) ++ replicate (failed_loads ls) (ctxTag, "s3readerror").
Proof.
  induction ls as [|l ls IH]; intros st st' H; simpl in H.
  - simplify_eq. simpl. by rewrite app_nil_r.
  - destruct (step st l) as [st1|] eqn:Hs; simpl in H; [|done].
    rewrite (IH _ _ H).
    change (failed_loads (l :: ls)) with (failed_loads ([l] ++ ls)).
    rewrite failed_loads_app, replicate_add, app_assoc. f_equal.
    unfold calls, counted.
    destruct (step_trace _ _ _ Hs)
      as [(f & -> & ->)|[[-> ->]|(tid & c & t & t' & acts & -> & _ & Hts & ->)]].
    + rewrite fmap_app, omap_app. done.
    + simpl. by rewrite app_nil_r.
    + rewrite fmap_app, omap_app, untag. f_equal.
      apply (thread_step_counted _ _ _ _ _ Hts).
Qed.

(** X8: in every execution the only counter the package increments is the
    read-error counter, and it has been incremented exactly once for each
    download that failed. *)
Theorem read_errors_counted ls st :
  run NewWith ls = Some st →
  counted (calls st) = replicate (failed_loads ls) (ctxTag, "s3readerror").
Proof. intros H. by rewrite (run_counted _ _ _ H). Qed.

(** ** The threads of an execution *)

Lemma effects_spawned t acts : ∀ st,
  threads (foldl (effect t) st acts)
  = threads st ++ (spawned t <$> dispatched acts).
Proof.
  induction acts as [|a acts IH]; intros st; simpl.
  - by rewrite app_nil_r.
  - rewrite IH. destruct a; simpl; try done; [by case_match|].
    by rewrite <- app_assoc.
Qed.

(** The state after a step of a thread. *)
Lemma step_shape st tid c st' :
  step st (LStep tid c) = Some st' →
  ∃ t t' acts,
    threads st !! tid = Some t ∧ enabled st t c = true ∧
    thread_step st t c = Some (t', acts) ∧
    threads st' = <[tid := t']> (threads st) ++ (spawned t <$> dispatched acts) ∧
    trace st' = trace st ++ ((tid,.) <$> acts) ∧
    cancel st' = cancel st.
Proof.
  intros (_ & t & t' & acts & Ht & Hen & Hts & ->)%step_LStep.
  exists t, t', acts. split_and!; try done; simpl.
  - by rewrite effects_spawned.
  - by rewrite effects_trace.
  - by rewrite effects_cancel.
Qed.

Lemma lookup_step (ts new : list thread) tid t' j x :
  tid < length ts →
  (<[tid := t']> ts ++ new) !! j = Some x →
  (j = tid ∧ x = t') ∨ (j ≠ tid ∧ ts !! j = Some x) ∨
  (length ts ≤ j ∧ x ∈ new).
Proof.
  intros Htid [H|[Hj H]]%lookup_app_Some.
  - destruct (decide (j = tid)) as [->|Hne].
    + rewrite list_lookup_insert_eq in H by done. left. by simplify_eq.
    + rewrite list_lookup_insert_ne in H by done. right. by left.
  - rewrite length_insert in Hj, H. right. right. split; [done|].
    by eapply list_elem_of_lookup_2.
Qed.

(** A step keeps the handler of its thread, and starts tasks only from a
    drain loop. *)
Lemma thread_step_handler st t c t' acts :
  thread_step st t c = Some (t', acts) →
  handler_of t' = handler_of t ∧
  ((∃ pc, t = TClose pc) → (∃ pc, t' = TClose pc) ∧ dispatched acts = []) ∧
  (∀ h data, t' = TIngest h (IHandle data) → c = ChLoad (inr data)) ∧
  (∀ data ret, AHandler data ret ∈ acts →
               t = TIngest (handler_of t) (IHandle data) ∧
               ret = handler_of t data).
Proof.
  revert t' acts. thread_cases t c;
    (split_and!; [done|intros [? ?]; by eauto|intros; by simplify_eq
                 |intros ? ? Hin; elems Hin]).
Qed.

Lemma handlers_app ls1 ls2 : handlers (ls1 ++ ls2) = handlers ls1 ++ handlers ls2.
Proof. apply omap_app. Qed.

Lemma loaded_app ls1 ls2 : loaded (ls1 ++ ls2) = loaded ls1 ++ loaded ls2.
Proof. apply omap_app. Qed.

Lemma handler_inv_step hs lo st l st' :
  handler_inv hs lo st → step st l = Some st' →
  handler_inv (hs ++ handlers [l]) (lo ++ loaded [l]) st'.
Proof.
  intros [Hth Hpay Hcalls] H. destruct l as [f| |tid c].
  - unfold step in H. destruct (panicked st); simplify_eq/=. split; simpl.
    + intros j t [Hj|[_ Hj]]%lookup_app_Some.
      * destruct (Hth _ _ Hj) as [?|?]; [by left|].
        right. apply elem_of_app. by left.
      * destruct (j - length (threads st)); simplify_eq/=.
        right. apply elem_of_app. right. by left.
    + intros j h data [Hj|[_ Hj]]%lookup_app_Some.
      * rewrite app_nil_r. eauto.
      * destruct (j - length (threads st)); simplify_eq/=.
    + intros j data ret [Hin|Hin]%elem_of_app.
      * destruct (Hcalls _ _ _ Hin) as (h & ? & ? & ?). exists h.
        rewrite app_nil_r. split_and!; try done. apply elem_of_app. by left.
      * apply list_elem_of_singleton in Hin. simplify_eq.
  - unfold step in H. destruct (panicked st); simplify_eq/=.
    rewrite !app_nil_r. split; simpl.
    + intros j t [Hj|[_ Hj]]%lookup_app_Some; [eauto|].
      destruct (j - length (threads st)); simplify_eq/=. left. by eexists.
    + intros j h data [Hj|[_ Hj]]%lookup_app_Some; [eauto|].
      destruct (j - length (threads st)); simplify_eq/=.
    + done.
  - apply step_shape in H
      as (t & t' & acts & Ht & _ & Hts & Hthreads & Htrace & _).
    destruct (thread_step_handler _ _ _ _ _ Hts) as (Hsame & Hclose & Hload & Hcall).
    pose proof (lookup_lt_Some _ _ _ Ht) as Htid.
    change (handlers [LStep tid c]) with (@nil (payload → bool)).
    rewrite app_nil_r. split.
    + intros j x Hj. rewrite Hthreads in Hj.
      apply lookup_step in Hj as [[-> ->]|[[_ Hj]|[_ Hin]]]; [| | |done].
      * destruct (Hth _ _ Ht) as [Hc|Hin].
        -- left. by apply Hclose.
        -- right. by rewrite Hsame.
      * eauto.
      * apply list_elem_of_fmap in Hin as (bk & -> & Hin). simpl.
        destruct (Hth _ _ Ht) as [Hc|?]; [|by right].
        apply Hclose in Hc as [_ Hnone]. rewrite Hnone in Hin.
        by apply not_elem_of_nil in Hin.
    + intros j h data Hj. rewrite Hthreads in Hj.
      apply lookup_step in Hj as [[-> Hx]|[[_ Hj]|[_ Hin]]]; [| | |done].
      * symmetry in Hx. apply Hload in Hx as ->.
        apply elem_of_app. right. by left.
      * apply elem_of_app. left. eauto.
      * by apply list_elem_of_fmap in Hin as (bk & ? & _).
    + intros j data ret Hin. rewrite Htrace in Hin.
      apply elem_of_app in Hin as [Hin|Hin].
      * destruct (Hcalls _ _ _ Hin) as (h & ? & ? & ?). exists h.
        split_and!; try done. apply elem_of_app. by left.
      * apply list_elem_of_fmap in Hin as (a & ? & Hin). simplify_eq.
        destruct (Hcall _ _ Hin) as [Ht' ->]. rewrite Ht' in Ht.
        exists (handler_of t). split_and!; [|done|].
        -- destruct (Hth _ _ Ht) as [[pc Hc]|Hh]; [done|]. by rewrite Ht' in Hh.
        -- apply elem_of_app. left. eauto.
Qed.

Lemma handler_inv_run ls : ∀ hs lo st st',
  handler_inv hs lo st → run st ls = Some st' →
  handler_inv (hs ++ handlers ls) (lo ++ loaded ls) st'.
Proof.
  induction ls as [|l ls IH]; intros hs lo st st' Hinv H; simpl in H.
  - simplify_eq. by rewrite !app_nil_r.
  - destruct (step st l) as [st1|] eqn:Hs; simpl in H; [|done].
    change (l :: ls) with ([l] ++ ls).
    rewrite handlers_app, loaded_app, !app_assoc.
    eapply IH; [|done]. by eapply handler_inv_step.
Qed.

(** X9: in every execution, every drain loop and every task runs a handler
    that was passed to [Range], and every handler call is the call of such a
    handler on a payload that the downloader returned to the calling task. *)
Theorem handler_provenance ls st :
  run NewWith ls = Some st →
  (∀ j t, threads st !! j = Some t →
          (∃ pc, t = TClose pc) ∨ handler_of t ∈ handlers ls) ∧
  (∀ j data ret, (j, AHandler data ret) ∈ trace st →
                 ∃ h, LRange h ∈ ls ∧ ret = h data ∧
                      LStep j (ChLoad (inr data)) ∈ ls).
Proof.
  intros Hrun.
  assert (Hnew : handler_inv [] [] NewWith).
  { split; simpl; intros; by (simplify_eq || apply not_elem_of_nil in H). }
  destruct (handler_inv_run _ _ _ _ _ Hnew Hrun) as [Hth _ Hcalls].
  rewrite !app_nil_l in *. split; [done|].
  intros j data ret Hin.
  destruct (Hcalls _ _ _ Hin) as (h & Hh & -> & Hlo). exists h.
  split_and!; [|done|].
  - apply list_elem_of_omap in Hh as ([| |] & ? & ?); by simplify_eq.
  - apply list_elem_of_omap in Hlo as ([| |? [| | | |[|]]] & ? & ?);
      by simplify_eq.
Qed.

(** ** Where a download comes from *)

Lemma decoded_mono tr tr' ev : decoded tr ev → decoded (tr ++ tr') ev.
Proof.
  intros (j & body & evs & Hin & ? & ?). exists j, body, evs.
  split_and!; try done. apply elem_of_app. by left.
Qed.

Lemma Forall_decoded_mono tr tr' rs :
  Forall (decoded tr) rs → Forall (decoded (tr ++ tr')) rs.
Proof. intros H. eapply Forall_impl; [done|]. intros ev. apply decoded_mono. Qed.

Lemma announced_mono tr tr' b k : announced tr b k → announced (tr ++ tr') b k.
Proof.
  intros (ev & Hd & ? & ?). exists ev. split_and!; try done.
  by apply decoded_mono.
Qed.

Lemma pending_mono tr tr' t : pending tr t → pending (tr ++ tr') t.
Proof.
  destruct t as [? ? [| | | |]|? []|]; simpl; try done.
  - apply Forall_decoded_mono.
  - intros [Ha Hf]. split; [by apply announced_mono|by apply Forall_decoded_mono].
  - intros [Ha Hf]. split; [by apply announced_mono|by apply Forall_decoded_mono].
  - apply announced_mono.
Qed.

Lemma thread_step_pending tr tid st t c t' acts :
  thread_step st t c = Some (t', acts) → pending tr t →
  pending (tr ++ ((tid,.) <$> acts)) t' ∧
  (∀ bk, bk ∈ dispatched acts → announced tr bk.1 bk.2) ∧
  (∀ uri, ALoad uri ∈ acts → ∃ b k, uri = locator b k ∧ announced tr b k).
Proof.
  intros Hts Hp.
  assert (Hrest :
    (∀ bk, bk ∈ dispatched acts → announced tr bk.1 bk.2) ∧
    (∀ uri, ALoad uri ∈ acts → ∃ b k, uri = locator b k ∧ announced tr b k)).
  { revert t' acts Hts Hp. thread_cases t c;
      (split; [intros bk Hin|intros uri Hin]); elems Hin; simplify_eq.
    - by destruct Hp.
    - eauto.
    - eauto. }
  split; [|done]. clear Hrest.
  revert t' acts Hts Hp. thread_cases t c; try done.
  - apply Forall_forall. intros ev Hev. eexists tid, _, _.
    split_and!; [|done..]. apply elem_of_app. right.
    repeat first [by apply list_elem_of_here|apply list_elem_of_further].
  - apply Forall_forall. intros ev Hev. eexists tid, _, _.
    split_and!; [|done..]. apply elem_of_app. right.
    repeat first [by apply list_elem_of_here|apply list_elem_of_further].
  - apply Forall_decoded_mono. by inversion Hp.
  - inversion Hp as [|? ? Hev Hf]; subst.
    split; [|by apply Forall_decoded_mono].
    apply announced_mono. by eexists.
  - destruct Hp. split; [by apply announced_mono|by apply Forall_decoded_mono].
  - destruct Hp. by apply Forall_decoded_mono.
  - destruct Hp. by apply Forall_decoded_mono.
Qed.

Lemma load_inv_step st l st' : load_inv st → step st l = Some st' → load_inv st'.
Proof.
  intros [Hth Hloads] H. destruct l as [f| |tid c].
  - unfold step in H. destruct (panicked st); simplify_eq/=. split; simpl.
    + intros j t [Hj|[_ Hj]]%lookup_app_Some.
      * apply pending_mono. eauto.
      * by destruct (j - length (threads st)); simplify_eq/=.
    + intros j uri [Hin|Hin]%elem_of_app.
      * destruct (Hloads _ _ Hin) as (b & k & -> & ?).
        exists b, k. split; [done|]. by apply announced_mono.
      * apply list_elem_of_singleton in Hin. simplify_eq.
  - unfold step in H. destruct (panicked st); simplify_eq/=. split; simpl.
    + intros j t [Hj|[_ Hj]]%lookup_app_Some; [eauto|].
      by destruct (j - length (threads st)); simplify_eq/=.
    + done.
  - apply step_shape in H
      as (t & t' & acts & Ht & _ & Hts & Hthreads & Htrace & _).
    pose proof (lookup_lt_Some _ _ _ Ht) as Htid.
    destruct (thread_step_pending (trace st) tid _ _ _ _ _ Hts (Hth _ _ Ht))
      as (Hp' & Hgo & Hload).
    rewrite <- Htrace in Hp'. split.
    + intros j x Hj. rewrite Hthreads in Hj.
      apply lookup_step in Hj as [[-> ->]|[[_ Hj]|[_ Hin]]]; [| | |done].
      * done.
      * rewrite Htrace. apply pending_mono. eauto.
      * apply list_elem_of_fmap in Hin as (bk & -> & Hin). simpl.
        rewrite Htrace. apply announced_mono. by apply Hgo.
    + intros j uri Hin. rewrite Htrace in Hin |- *.
      apply elem_of_app in Hin as [Hin|Hin].
      * destruct (Hloads _ _ Hin) as (b & k & -> & ?).
        exists b, k. split; [done|]. by apply announced_mono.
      * apply list_elem_of_fmap in Hin as (a & ? & Hin). simplify_eq.
        destruct (Hload _ Hin) as (b & k & -> & ?).
        exists b, k. split; [done|]. by apply announced_mono.
Qed.

Lemma load_inv_run ls : ∀ st st', load_inv st → run st ls = Some st' → load_inv st'.
Proof.
  induction ls as [|l ls IH]; intros st st' Hinv H; simpl in H.
  - by simplify_eq.
  - destruct (step st l) as [st1|] eqn:Hs; simplify_eq/=.
    eauto using load_inv_step.
Qed.

(** Every call of an execution was made in a step of its schedule. *)
Lemma run_origin ls : ∀ st st' j a,
  run st ls = Some st' → (j, a) ∈ trace st' →
  (j, a) ∈ trace st ∨ a = AStartPolling ∨
  ∃ c s t t' acts,
    LStep j c ∈ ls ∧ thread_step s t c = Some (t', acts) ∧ a ∈ acts.
Proof.
  induction ls as [|l ls IH]; intros st st' j a H Hin; simpl in H.
  - simplify_eq. by left.
  - destruct (step st l) as [st1|] eqn:Hs; simpl in H; [|done].
    destruct (IH _ _ _ _ H Hin) as [Hin1|[->|(c & s & t & t' & acts & ? & ? & ?)]].
    + destruct (step_trace _ _ _ Hs)
        as [(f & -> & Htr)|[[-> Htr]|(tid & c & t & t' & acts & -> & _ & Hts & Htr)]];
        rewrite Htr in Hin1.
      * apply elem_of_app in Hin1 as [?|Hin1]; [by left|].
        apply list_elem_of_singleton in Hin1. simplify_eq. right. by left.
      * by left.
      * apply elem_of_app in Hin1 as [?|Hin1]; [by left|].
        apply list_elem_of_fmap in Hin1 as (a' & ? & Hin1). simplify_eq.
        right. right. eexists _, _, _, _, _. split_and!; [by left|done..].
    + right. by left.
    + right. right. eexists c, s, t, t', acts. split_and!; [by right|done..].
Qed.

Lemma thread_step_unmarshals st t c t' acts body :
  thread_step st t c = Some (t', acts) → AUnmarshal body ∈ acts →
  ∃ msg del, c = ChRecv (Some msg) del ∧ Body msg = Some body ∧
             (acknowledge msg del).2 = None.
Proof.
  revert t' acts. thread_cases t c;
    match goal with Hin : AUnmarshal _ ∈ _ |- _ => elems Hin end.
  all: simplify_eq; eexists _, _; split_and!; try done; unfold acknowledge.
  all: by repeat case_match.
Qed.

(** X10: in every execution the downloader is only ever asked for the
    object of a record of a notification that a drain loop received,
    acknowledged and decoded: the locator is "s3://", the bucket of the
    record, "/" and its unescaped key. *)
Theorem load_provenance ls st j uri :
  run NewWith ls = Some st →
  (j, ALoad uri) ∈ trace st →
  ∃ i msg del body evs ev key,
    LStep i (ChRecv (Some msg) del) ∈ ls ∧
    Body msg = Some body ∧ (acknowledge msg del).2 = None ∧
    Unmarshal body = inr evs ∧ ev ∈ Records evs ∧
    url.QueryUnescape (Key ev) = inr key ∧
    uri = locator (Name ev) key.
Proof.
  intros Hrun Hin.
  assert (Hnew : load_inv NewWith).
  { split; simpl; intros; by (simplify_eq || apply not_elem_of_nil in H). }
  destruct (load_inv_run _ _ _ Hnew Hrun) as [_ Hloads].
  destruct (Hloads _ _ Hin)
    as (b & k & -> & ev & (i & body & evs & Hun & Hdec & Hev) & <- & Hkey).
  destruct (run_origin _ _ _ _ _ Hrun Hun)
    as [Hnil|[?|(c & s & t & t' & acts & Hl & Hts & Ha)]];
    [by apply not_elem_of_nil in Hnil|done|].
  destruct (thread_step_unmarshals _ _ _ _ _ _ Hts Ha) as (msg & del & -> & ? & ?).
  by exists i, msg, del, body, evs, ev, k.
Qed.

(** ** Contexts and their cancellation *)

Lemma effects_ctxs_lookup t acts c b : ∀ st,
  ctxs (foldl (effect t) st acts) !! c = Some b →
  ctxs st !! c = Some b ∨ b = true ∧ ACancel c ∈ acts.
Proof.
  induction acts as [|a acts IH]; intros st H; simpl in H; [by left|].
  destruct (IH _ H) as [Hst|[-> Hin]]; [|right; split; [done|by right]].
  destruct a; simpl in Hst; try (by left); [by case_match; left|].
  destruct (decide (ctx = c)) as [->|Hne].
  - destruct (decide (c < length (ctxs st))) as [Hlt|Hge].
    + rewrite list_lookup_insert_eq in Hst by done. simplify_eq.
      right. split; [done|by left].
    + rewrite list_insert_ge in Hst by lia. by left.
  - rewrite list_lookup_insert_ne in Hst by done. by left.
Qed.

Lemma effects_ctxs_keep t acts c : ∀ st,
  ACancel c ∉ acts →
  ctxs (foldl (effect t) st acts) !! c = ctxs st !! c.
Proof.
  induction acts as [|a acts IH]; intros st Hnot; simpl; [done|].
  rewrite IH by (intros Hin; apply Hnot; by right).
  destruct a; simpl; try done; [by case_match|].
  apply list_lookup_insert_ne. intros ->. apply Hnot. by left.
Qed.

(** Who cancels, and how a drain loop comes to return. *)
Lemma thread_step_scope st t c t' acts :
  thread_step st t c = Some (t', acts) →
  (∀ c0, ACancel c0 ∈ acts → (∃ pc, t = TClose pc) ∧ cancel st = Some c0) ∧
  (∀ c0 h, t' = TDrain c0 h DReturned → t = TDrain c0 h DSelect ∧ c = ChDone).
Proof.
  revert t' acts. thread_cases t c;
    (split; [intros c0 Hin; elems Hin|intros; by simplify_eq]).
  simplify_eq. split; [by eexists|done].
Qed.

Lemma scope_inv_step st l st' : scope_inv st → step st l = Some st' → scope_inv st'.
Proof.
  intros [Hlatest Hdone Hret] H. destruct l as [f| |tid c].
  - unfold step in H. destruct (panicked st); simplify_eq/=. split; simpl.
    + intros c [= <-]. rewrite length_app. simpl. lia.
    + intros c [Hc|[_ Hc]]%lookup_app_Some.
      * destruct (Hdone _ Hc) as (i & pc & Hi & Hin). exists i, pc.
        split; [by apply lookup_app_l_Some|]. apply elem_of_app. by left.
      * by destruct (c - length (ctxs st)) as [|[|?]]; simplify_eq/=.
    + intros j c h [Hj|[_ Hj]]%lookup_app_Some.
      * apply lookup_app_l_Some. eauto.
      * by destruct (j - length (threads st)) as [|[|?]]; simplify_eq/=.
  - unfold step in H. destruct (panicked st); simplify_eq/=. split; simpl.
    + done.
    + intros c Hc. destruct (Hdone _ Hc) as (i & pc & Hi & Hin).
      exists i, pc. split; [by apply lookup_app_l_Some|done].
    + intros j c h [Hj|[_ Hj]]%lookup_app_Some; [eauto|].
      by destruct (j - length (threads st)) as [|[|?]]; simplify_eq/=.
  - pose proof H as Hshape. apply step_shape in Hshape
      as (t & t' & acts & Ht & Hen & Hts & Hthreads & Htrace & Hcancel).
    apply step_LStep in H as (_ & t0 & t0' & acts0 & Ht0 & _ & Hts0 & ->).
    simplify_eq. clear Htrace. simpl in Hthreads.
    rename t0 into t, t0' into t', acts0 into acts, Ht0 into Ht, Hts0 into Hts.
    pose proof (lookup_lt_Some _ _ _ Ht) as Htid.
    destruct (thread_step_scope _ _ _ _ _ Hts) as [Hcanc Hreturn].
    destruct (thread_step_handler _ _ _ _ _ Hts) as (_ & Hclose & _ & _).
    assert (Hkeep : ∀ i pc, threads st !! i = Some (TClose pc) →
              ∃ pc', (<[tid := t']> (threads st)
                        ++ (spawned t <$> dispatched acts)) !! i
                     = Some (TClose pc')).
    { intros i pc Hi. destruct (decide (i = tid)) as [->|Hne].
      - simplify_eq. destruct Hclose as [[pc' ->] _]; [by eexists|].
        exists pc'. apply lookup_app_l_Some. by apply list_lookup_insert_eq.
      - exists pc. apply lookup_app_l_Some. by rewrite list_lookup_insert_ne. }
    split; simpl.
    + rewrite effects_cancel, effects_ctxs_length. apply Hlatest.
    + intros c0 Hc0. rewrite Hthreads, effects_trace. simpl.
      apply effects_ctxs_lookup in Hc0 as [Hc0|[_ Hin]].
      * destruct (Hdone _ Hc0) as (i & pc & Hi & Hin).
        destruct (Hkeep _ _ Hi) as [pc' Hi']. exists i, pc'.
        split; [done|]. apply elem_of_app. by left.
      * destruct (Hcanc _ Hin) as [[pc ->] _].
        destruct (Hkeep _ _ Ht) as [pc' Hi']. exists tid, pc'.
        split; [done|]. apply elem_of_app. right.
        by apply list_elem_of_fmap_2.
    + intros j c0 h Hj. rewrite Hthreads in Hj.
      apply effects_ctxs_done. simpl.
      apply lookup_step in Hj as [[-> Hx]|[[_ Hj]|[_ Hin]]]; [| | |done].
      * symmetry in Hx. destruct (Hreturn _ _ Hx) as [-> ->].
        simpl in Hen. unfold ctx_done in Hen.
        by destruct (ctxs st !! c0) as [[|]|].
      * eauto.
      * by apply list_elem_of_fmap in Hin as (bk & ? & _).
Qed.

Lemma scope_inv_run ls : ∀ st st', scope_inv st → run st ls = Some st' → scope_inv st'.
Proof.
  induction ls as [|l ls IH]; intros st st' Hinv H; simpl in H.
  - by simplify_eq.
  - destruct (step st l) as [st1|] eqn:Hs; simplify_eq/=.
    eauto using scope_inv_step.
Qed.

Lemma scope_inv_NewWith : scope_inv NewWith.
Proof. by split. Qed.

(** X11: the drain loop ends only by cancellation: in every execution, a
    drain loop that has returned had its context cancelled by a caller of
    [Close]; no error of the queue, of the decoding or of a download ends
    it. *)
Theorem drain_returns_after_cancel ls st j c h :
  run NewWith ls = Some st →
  threads st !! j = Some (TDrain c h DReturned) →
  ctxs st !! c = Some true ∧
  ∃ i pc, threads st !! i = Some (TClose pc) ∧ (i, ACancel c) ∈ trace st.
Proof.
  intros Hrun Hj.
  destruct (scope_inv_run _ _ _ scope_inv_NewWith Hrun) as [_ Hdone Hret].
  split; eauto.
Qed.

Lemma stale_step st l st' c :
  scope_inv st → ctxs st !! c = Some false → S c < length (ctxs st) →
  step st l = Some st' →
  ctxs st' !! c = Some false ∧ S c < length (ctxs st').
Proof.
  intros [Hlatest _ _] Hc Hlt H. destruct l as [f| |tid ch].
  - unfold step in H. destruct (panicked st); simplify_eq/=.
    split; [by apply lookup_app_l_Some|]. rewrite length_app. lia.
  - unfold step in H. by destruct (panicked st); simplify_eq/=.
  - apply step_LStep in H as (_ & t & t' & acts & Ht & _ & Hts & ->). simpl.
    rewrite effects_ctxs_length. split; [|done].
    rewrite effects_ctxs_keep; [done|].
    intros Hin. destruct (thread_step_scope _ _ _ _ _ Hts) as [Hcanc _].
    destruct (Hcanc _ Hin) as [_ Hcancel]. apply Hlatest in Hcancel. lia.
Qed.

Lemma stale_run ls : ∀ st st' c,
  scope_inv st → ctxs st !! c = Some false → S c < length (ctxs st) →
  run st ls = Some st' → ctxs st' !! c = Some false.
Proof.
  induction ls as [|l ls IH]; intros st st' c Hinv Hc Hlt H; simpl in H.
  - by simplify_eq.
  - destruct (step st l) as [st1|] eqn:Hs; simplify_eq/=.
    destruct (stale_step _ _ _ _ Hinv Hc Hlt Hs) as [Hc1 Hlt1].
    exact (IH _ _ _ (scope_inv_step _ _ _ Hinv Hs) Hc1 Hlt1 H).
Qed.

(** X12: [Close] cancels the context of the latest [Range] and no other.
    In every execution the cancel function is that of the last context
    made; so when [Range] is called again before the context of an earlier
    call was cancelled, that context is never cancelled, and the drain loop
    started on it never returns. *)
Theorem earlier_Range_never_cancelled ls st c :
  run NewWith ls = Some st →
  ctxs st !! c = Some false → S c < length (ctxs st) →
  (∀ c', cancel st = Some c' → S c' = length (ctxs st)) ∧
  ∀ ls' st',
    run st ls' = Some st' →
    ctxs st' !! c = Some false ∧
    ∀ j h, threads st' !! j ≠ Some (TDrain c h DReturned).
Proof.
  intros Hrun Hc Hlt.
  pose proof (scope_inv_run _ _ _ scope_inv_NewWith Hrun) as Hinv.
  split; [by destruct Hinv|].
  intros ls' st' Hrun'.
  pose proof (stale_run _ _ _ _ Hinv Hc Hlt Hrun') as Hc'.
  split; [done|]. intros j h Hj.
  destruct (scope_inv_run _ _ _ Hinv Hrun') as [_ _ Hret].
  apply Hret in Hj. congruence.
Qed.

(** ** Tasks started and units released *)

Lemma in_flight_insert ts : ∀ i t t',
  ts !! i = Some t →
  (Z.of_nat (length (filter (λ t, in_flight t = true) (<[i := t']> ts)))
   + Z.b2z (in_flight t)
   = Z.of_nat (length (filter (λ t, in_flight t = true) ts))
     + Z.b2z (in_flight t'))%Z.
Proof.
  induction ts as [|x ts IH]; intros [|i] t t' H; simplify_eq/=.
  - rewrite !filter_cons.
    destruct (decide (in_flight t' = true)) as [->|?%not_true_is_false],
             (decide (in_flight t = true)) as [->|?%not_true_is_false];
      simpl; repeat match goal with Hf : in_flight _ = false |- _ =>
                                      rewrite Hf end; simpl; lia.
  - specialize (IH _ _ t' H). rewrite !filter_cons.
    destruct (decide (in_flight x = true)); simpl; lia.
Qed.

Lemma in_flight_spawned t (bks : list (string * string)) :
  filter (λ t, in_flight t = true) (spawned t <$> bks) = spawned t <$> bks.
Proof.
  induction bks as [|bk bks IH]; [done|].
  simpl. rewrite filter_cons_True by done. by f_equal.
Qed.

Lemma released_app a b : released (a ++ b) = released a ++ released b.
Proof. apply omap_app. Qed.

(** Only the deferred [Release] of a task gives a unit back, and the task
    is no longer in flight after it. *)
Lemma thread_step_released st t c t' acts :
  thread_step st t c = Some (t', acts) →
  ∃ k, released acts = replicate k 1%Z ∧
       (Z.of_nat k + Z.b2z (in_flight t') = Z.b2z (in_flight t))%Z.
Proof.
  revert t' acts. thread_cases t c; first [by exists 0|by exists 1].
Qed.

Lemma accounted_step st l st' n :
  step st l = Some st' →
  released (calls st) = replicate n 1%Z →
  (Z.of_nat n + count in_flight st
   = Z.of_nat (length (dispatched (calls st))))%Z →
  ∃ n', released (calls st') = replicate n' 1%Z ∧
        (Z.of_nat n' + count in_flight st'
         = Z.of_nat (length (dispatched (calls st'))))%Z.
Proof.
  unfold count, calls. intros H Hrel Hsum. destruct l as [f| |tid c].
  - unfold step in H. destruct (panicked st); simplify_eq/=. exists n.
    rewrite fmap_app, released_app, dispatched_app, filter_app, !length_app.
    simpl. rewrite app_nil_r, Hrel. split; [done|]. lia.
  - unfold step in H. destruct (panicked st); simplify_eq/=. exists n.
    split; [done|]. rewrite filter_app, length_app. simpl. lia.
  - apply step_shape in H
      as (t & t' & acts & Ht & _ & Hts & -> & -> & _).
    destruct (thread_step_released _ _ _ _ _ Hts) as (k & Hk & Hfly).
    exists (n + k).
    rewrite fmap_app, untag, released_app, dispatched_app, filter_app,
      !length_app, in_flight_spawned, length_fmap, Hrel, Hk, <- replicate_add.
    split; [done|].
    pose proof (in_flight_insert _ _ _ t' Ht). lia.
Qed.

Lemma accounted_run ls : ∀ st st' n,
  run st ls = Some st' →
  released (calls st) = replicate n 1%Z →
  (Z.of_nat n + count in_flight st
   = Z.of_nat (length (dispatched (calls st))))%Z →
  ∃ n', released (calls st') = replicate n' 1%Z ∧
        (Z.of_nat n' + count in_flight st'
         = Z.of_nat (length (dispatched (calls st'))))%Z.
Proof.
  induction ls as [|l ls IH]; intros st st' n H Hrel Hsum; simpl in H.
  - simplify_eq. eauto.
  - destruct (step st l) as [st1|] eqn:Hs; simplify_eq/=.
    destruct (accounted_step _ _ _ _ Hs Hrel Hsum) as (n1 & Hrel1 & Hsum1).
    eauto.
Qed.

(** X13: every task started is accounted for.  In every execution the
    limiter is released one unit at a time, and the number of releases
    plus the number of tasks that still hold their unit is the number of
    [go] statements executed: a task releases exactly once, and nothing but
    a task releases. *)
Theorem tasks_accounted ls st :
  run NewWith ls = Some st →
  ∃ n, released (calls st) = replicate n 1%Z ∧
       (Z.of_nat n + count in_flight st
        = Z.of_nat (length (dispatched (calls st))))%Z.
Proof. intros H. by apply (accounted_run _ _ _ 0 H). Qed.

(** ** The limiter invariant *)

(** A host has at least one CPU, and not so many that three times their
    number overflows. *)
Hypothesis cpus : (1 ≤ numCPU < 2 ^ 61)%Z.

Lemma concurrency_eq : concurrency = (3 * numCPU)%Z.
Proof.
  unfold concurrency, wrap64. rewrite Z.mod_small; lia.
Qed.

Lemma held_nonneg t : (0 ≤ held t)%Z.
Proof.
  pose proof concurrency_eq.
  destruct t as [? ? []|? []|[]]; simpl; lia.
Qed.

Lemma total_held_nonneg ts : (0 ≤ total_held ts)%Z.
Proof.
  induction ts as [|t ts IH]; simpl; [lia|]. pose proof (held_nonneg t). lia.
Qed.

Lemma held_le_total ts i t : ts !! i = Some t → (held t ≤ total_held ts)%Z.
Proof.
  revert i. induction ts as [|t0 ts IH]; intros [|i] H; simplify_eq/=.
  - pose proof (total_held_nonneg ts). lia.
  - pose proof (held_nonneg t0). specialize (IH i H). lia.
Qed.

(** A step keeps the units held by the threads equal to the units taken
    from the limiter, and [Release] never panics. *)
Lemma thread_step_cur st tid c t t' acts :
  panicked st = false →
  size (limit st) = concurrency →
  cur (limit st) = total_held (threads st) →
  (cur (limit st) ≤ concurrency)%Z →
  threads st !! tid = Some t →
  enabled st t c = true →
  thread_step st t c = Some (t', acts) →
  let st' := foldl (effect t) (set_threads (<[tid := t']> (threads st)) st) acts in
  cur (limit st') = total_held (threads st') ∧
  (cur (limit st') ≤ concurrency)%Z ∧
  (panicked st' = true → t = TClose CCancel ∧ cancel st = None).
Proof.
  intros Hp Hsize Hcur Hbound Ht Hen Hts.
  pose proof (held_le_total _ _ _ Ht) as Hle.
  pose proof (total_held_insert _ _ _ t' Ht) as Hins.
  pose proof concurrency_eq as Hconc.
  destruct t as [ctx h pc|h pc|pc]; simpl in Hts.
  - destruct (drain_step pc c) as [[pc' a]|] eqn:Hd; simplify_eq/=.
    destruct pc as [|[|ev rest]|b k rest|b k rest|], c as [| |[msg|] del|[|]|r];
      simplify_eq/=; rewrite ?Hp; try (split_and!; (lia || done)).
    + destruct (Body msg); simplify_eq/=; rewrite ?Hp;
        [|split_and!; (lia || done)].
      unfold acknowledge in Hd.
      destruct (ReceiptHandle msg), del, (Unmarshal s);
        simplify_eq/=; rewrite ?Hp; split_and!; (lia || done).
    + destruct (url.QueryUnescape (Key ev)); simplify_eq/=; rewrite ?Hp;
        split_and!; (lia || done).
    + apply Z.leb_le in Hen. split_and!; (lia || done).
    + rewrite total_held_app. simpl. split_and!; (lia || done).
  - destruct (ingest_step h pc c) as [[pc' a]|] eqn:Hd; simplify_eq/=.
    destruct pc, c as [| |[msg|] del|[|]|[err|data']];
      simplify_eq/=; rewrite ?Hp; try (split_and!; (lia || done)).
    unfold Release. destruct (_ <? _)%Z eqn:Hlt; simpl; rewrite ?Hp.
    + apply Z.ltb_lt in Hlt. lia.
    + split_and!; (lia || done).
  - destruct (Close_step (cancel st) pc c) as [[pc' a]|] eqn:Hd; simplify_eq/=.
    destruct pc, c as [| |[msg|] del|[|]|r]; simplify_eq/=; rewrite ?Hp.
    + destruct (cancel st); simplify_eq/=; rewrite ?Hp;
        split_and!; (lia || done).
    + split_and!; (lia || done).
    + apply Z.leb_le in Hen. split_and!; (lia || done).
Qed.

Lemma inv_NewWith : inv NewWith.
Proof.
  split; simpl; try done.
  - pose proof concurrency_eq. lia.
  - intros j a H. by apply not_elem_of_nil in H.
  - intros j ctx H. by apply not_elem_of_nil in H.
  - intros j H. by apply not_elem_of_nil in H.
Qed.

Lemma inv_Range f st : inv st → inv (Range f st).
Proof.
  intros [Hsize Hcur Hbound Htags Hcancel Hdone Hnil Hclose Hpan]. split; simpl.
  - done.
  - rewrite total_held_app. simpl. lia.
  - done.
  - intros j a [H|H]%elem_of_app; rewrite length_app; simpl.
    + apply Htags in H. lia.
    + apply list_elem_of_singleton in H. simplify_eq. lia.
  - intros ctx [= <-]. rewrite length_app. simpl. lia.
  - intros j ctx [H|H]%elem_of_app.
    + apply lookup_app_l_Some. eauto.
    + apply list_elem_of_singleton in H. simplify_eq.
  - intros j [H|H]%elem_of_app; [eauto|].
    apply list_elem_of_singleton in H. simplify_eq.
  - intros i pc H.
    assert (Hi : threads st !! i = Some (TClose pc)).
    { apply lookup_app_Some in H as [H|[_ H]]; [done|].
      destruct (i - length (threads st)); simplify_eq/=. }
    change [(length (threads st), AStartPolling)]
      with ((length (threads st),.) <$> [AStartPolling]).
    rewrite own_app, (own_other i (length (threads st)) [AStartPolling]).
    + rewrite app_nil_r. eauto.
    + apply lookup_lt_Some in Hi. lia.
  - intros [j Hj]%Hpan. exists j. apply elem_of_app. by left.
Qed.

Lemma inv_enter_Close st :
  inv st → inv (set_threads (threads st ++ [TClose CCancel]) st).
Proof.
  intros [Hsize Hcur Hbound Htags Hcancel Hdone Hnil Hclose Hpan]. split; simpl; try done.
  - rewrite total_held_app. simpl. lia.
  - intros j a H. rewrite length_app. apply Htags in H. lia.
  - intros i pc H. apply lookup_app_Some in H as [H|[Hi H]]; [eauto|].
    destruct (i - length (threads st)) eqn:Hd; simplify_eq/=.
    left. apply own_fresh. intros j a Hin. apply Htags in Hin. lia.
Qed.

Lemma inv_LStep st tid c st' :
  inv st → step st (LStep tid c) = Some st' → inv st'.
Proof.
  intros [Hsize Hcur Hbound Htags Hcancel Hdone Hnil Hclose Hpan].
  intros (Hp & t & t' & acts & Ht & Hen & Hts & ->)%step_LStep.
  set (st0 := set_threads (<[tid := t']> (threads st)) st).
  destruct (effects_threads t acts st0) as (new & Hnew & Hingest).
  destruct (thread_step_cur st tid c t t' acts Hp Hsize Hcur Hbound Ht Hen Hts)
    as (Hcur' & Hbound' & Hpanic).
  destruct (thread_step_cancels _ _ _ _ _ Hts) as [Hcanc Hnilc].
  pose proof (lookup_lt_Some _ _ _ Ht) as Htid.
  split; simpl.
  - by rewrite effects_size.
  - done.
  - done.
  - intros j a [H|H]%elem_of_app; fold st0; rewrite Hnew, length_app;
      simpl; rewrite length_insert.
    + rewrite effects_trace in H. apply Htags in H. lia.
    + apply list_elem_of_fmap in H as (a' & ? & _). simplify_eq. lia.
  - rewrite effects_cancel, effects_ctxs_length. apply Hcancel.
  - intros j ctx [H|H]%elem_of_app.
    + rewrite effects_trace in H. apply effects_ctxs_done. simpl. eauto.
    + apply list_elem_of_fmap in H as (a' & ? & Hin). simplify_eq.
      apply effects_cancelled; [done|]. simpl. eauto.
  - intros j [H|H]%elem_of_app.
    + rewrite effects_trace in H. simpl in H. apply Hnil in H. congruence.
    + apply list_elem_of_fmap in H as (a' & ? & Hin). simplify_eq.
      by apply effects_nil_cancel.
  - intros i pc H. fold st0 in H. rewrite Hnew in H. simpl in H.
    rewrite effects_trace, own_app. simpl.
    apply lookup_app_Some in H as [H|[_ H]].
    + destruct (decide (i = tid)) as [->|Hne].
      * rewrite list_lookup_insert_eq in H by done. simplify_eq.
        rewrite own_self.
        destruct t as [| |pc0]; simpl in Hts;
          [by destruct (drain_step _ _) as [[]|]
          |by destruct (ingest_step _ _ _) as [[]|]|].
        destruct (Close_step (cancel st) pc0 c) as [[pc' a]|] eqn:Hcs;
          simplify_eq/=.
        eapply Close_step_calls; [done| |by apply Hclose].
        intros Hown%own_nil_cancel. apply Hnil in Hown. congruence.
      * rewrite list_lookup_insert_ne in H by done.
        rewrite own_other, app_nil_r by done. eauto.
    + apply list_elem_of_lookup_2 in H.
      rewrite Forall_forall in Hingest.
      by destruct (Hingest _ H) as (? & ? & ? & ?).
  - intros [-> Hnone]%Hpanic. exists tid.
    rewrite effects_trace. apply elem_of_app. right.
    simpl in Hts. rewrite Hnone in Hts.
    destruct c as [| |[msg|] del|[|]|r]; simplify_eq/=. by left.
Qed.

Lemma inv_step st l st' : inv st → step st l = Some st' → inv st'.
Proof.
  intros Hinv H. destruct l as [f| |tid c].
  - unfold step in H. destruct (panicked st); simplify_eq.
    by apply inv_Range.
  - unfold step in H. destruct (panicked st); simplify_eq.
    by apply inv_enter_Close.
  - by eapply inv_LStep.
Qed.

Lemma inv_run ls : ∀ st st', inv st → run st ls = Some st' → inv st'.
Proof.
  induction ls as [|l ls IH]; intros st st' Hinv H; simpl in H.
  - by simplify_eq.
  - destruct (step st l) as [st1|] eqn:Hs; simplify_eq/=.
    eauto using inv_step.
Qed.

(** ** The barrier and the bound *)

Lemma own_elem i a tr : a ∈ own i tr → (i, a) ∈ tr.
Proof.
  unfold own. intros ([j a'] & Ha & Hin)%list_elem_of_fmap. simpl in Ha. subst a'.
  apply list_elem_of_filter in Hin as [Hj Hin]. simpl in Hj. by subst j.
Qed.

Lemma held_pair ts i j t1 t2 :
  i ≠ j → ts !! i = Some t1 → ts !! j = Some t2 →
  (held t1 + held t2 ≤ total_held ts)%Z.
Proof.
  intros Hij Hi Hj.
  pose proof (total_held_insert ts i t1 (TClose CCancel) Hi) as Hins.
  assert (Hj' : <[i := TClose CCancel]> ts !! j = Some t2)
    by by rewrite list_lookup_insert_ne.
  apply held_le_total in Hj'. simpl in Hins. lia.
Qed.


(** C1 (amended): [Close] is a barrier for the limiter.  In every
    execution, a [Close] that has returned has cancelled a context, then
    closed the queue, then acquired the whole limiter; and from then on,
    whatever the program does next, no thread holds a unit: no task is
    fetching, handling or about to release, and the drain loop is not
    between an acquire and its go statement, so no task is started any more.
    A task that has released its unit may still be recording its
    duration. *)
Theorem Close_barrier ls st i :
  run NewWith ls = Some st →
  threads st !! i = Some (TClose CReturned) →
  (∃ ctx, own i (trace st) = [ACancel ctx; ASqsClose; AAcquire concurrency] ∧
          ctxs st !! ctx = Some true) ∧
  ∀ ls' st',
    run st ls' = Some st' →
    cur (limit st') = concurrency ∧
    (∀ j t, threads st' !! j = Some t → holds_unit t = false) ∧
    (∀ j h pc, threads st' !! j = Some (TIngest h pc) →
               pc = IDuration ∨ pc = IDone).
Proof.
  intros Hrun Hi. split.
  - destruct (inv_run _ _ _ inv_NewWith Hrun)
      as [Hsize Hcur Hbound Htags Hcancel Hdone Hnil Hclose Hpan].
    destruct (Hclose _ _ Hi) as [ctx Hown]. exists ctx. split; [done|].
    apply (Hdone i). apply own_elem. rewrite Hown. by left.
  - intros ls' st' Hrun'.
    assert (Hall : run NewWith (ls ++ ls') = Some st')
      by (by rewrite run_app, Hrun).
    pose proof (returned_run _ _ _ _ Hrun' Hi) as Hi'.
    destruct (inv_run _ _ _ inv_NewWith Hall)
      as [Hsize Hcur Hbound Htags Hcancel Hdone Hnil Hclose Hpan].
    assert (Hunit : ∀ j t, threads st' !! j = Some t → holds_unit t = false).
    { intros j t Hj. destruct (decide (i = j)) as [<-|Hij]; [by simplify_eq|].
      pose proof (held_pair _ _ _ _ _ Hij Hi' Hj) as Hpair.
      pose proof (held_nonneg t). simpl in Hpair.
      destruct (holds_unit t) eqn:Hu; [|done].
      assert (held t = 1%Z) by (destruct t as [? ? []| ? []|[]]; done). lia. }
    split_and!.
    + pose proof (held_le_total _ _ _ Hi') as Hle. simpl in Hle. lia.
    + done.
    + intros j h pc Hj. apply Hunit in Hj. destruct pc; simplify_eq/=; eauto.
Qed.


(** X14: [Close] returns at most once.  A [Close] that has returned keeps
    the whole limiter and nothing gives it back, so in every execution the
    callers of [Close] that have returned are at most one: a second call
    stays in its [Acquire]. *)
Theorem Close_returns_once ls st i j :
  run NewWith ls = Some st →
  threads st !! i = Some (TClose CReturned) →
  threads st !! j = Some (TClose CReturned) →
  i = j.
Proof.
  intros Hrun Hi Hj.
  destruct (inv_run _ _ _ inv_NewWith Hrun) as [_ Hcur Hbound _ _ _ _ _ _].
  destruct (decide (i = j)) as [|Hij]; [done|].
  pose proof (held_pair _ _ _ _ _ Hij Hi Hj) as Hpair. simpl in Hpair.
  pose proof concurrency_eq. lia.
Qed.

End Ingress.

(** ** The theorems on the sample notifications *)

(** The sample decoder on the sample bodies. *)
Lemma sample_Unmarshal_mixed :
  sample.Unmarshal (sample.render sample.mixed) = inr sample.mixed.
Proof. by vm_compute. Qed.

Lemma sample_Unmarshal_corrupt :
  sample.Unmarshal "not json" = inl (ErrOpaque "invalid character").
Proof. by vm_compute. Qed.

Lemma drain_dispatches_decodable_witness :
  Body (sample.message sample.mixed) = Some (sample.render sample.mixed) ∧
  sample.Unmarshal (sample.render sample.mixed) = inr sample.mixed ∧
  (acknowledge (sample.message sample.mixed) None).2 = None ∧
  ∀ cs acts,
    Forall uncancelled cs →
    steps (drain_step sample.Unmarshal) DSelect
          (ChRecv (Some (sample.message sample.mixed)) None :: cs)
    = Some (DSelect, acts) →
    dispatched acts = [("b", "a/b.json"); ("b", "c d")].
Proof.
  split_and!; [reflexivity|by vm_compute|reflexivity|].
  intros cs acts Hcs H.
  by apply (drain_dispatches_decodable sample.Unmarshal
              (sample.message sample.mixed) None _ sample.mixed
              eq_refl sample_Unmarshal_mixed eq_refl) in H as [-> _].
Defined.

(** C3, as first written, fails on an envelope whose only record has a key
    that does not unescape: one record, no task. *)
Lemma drain_drops_undecodable : ¬ dispatch_all_as_stated sample.Unmarshal.
Proof.
  intros H.
  specialize (H (sample.message sample.undecodable) None
                (sample.render sample.undecodable) sample.undecodable
                [ChTau; ChTau]
                [ADeleteMessage (sample.message sample.undecodable);
                 AUnmarshal (sample.render sample.undecodable);
                 AError (Internal "sqs: unable to unescape query"
                                  (EscapeError "%zz"))]).
  assert (Hcs : Forall uncancelled [ChTau; ChTau])
    by (repeat constructor; by left).
  by specialize (H eq_refl ltac:(by vm_compute) eq_refl Hcs ltac:(by vm_compute)).
Qed.

Lemma drain_corrupt_body_witness :
  Body sample.corrupt = Some "not json" ∧
  sample.Unmarshal "not json" = inl (ErrOpaque "invalid character") ∧
  (acknowledge sample.corrupt None).2 = None ∧
  drain_step sample.Unmarshal DSelect (ChRecv (Some sample.corrupt) None)
  = Some (DSelect,
          [ADeleteMessage sample.corrupt; AUnmarshal "not json";
           AError (Internal "sqs: unable to unmarshal"
                            (ErrOpaque "invalid character"))]).
Proof.
  split_and!; [reflexivity|by vm_compute|reflexivity|].
  by destruct (drain_corrupt_body sample.Unmarshal sample.corrupt None _ _
                 eq_refl sample_Unmarshal_corrupt eq_refl)
    as (acts & -> & -> & _).
Defined.

(** C6, as first written, fails on a message without a receipt handle: its
    body is decoded and rejected, and it was never deleted. *)
Lemma drain_corrupt_body_no_receipt :
  ¬ corrupt_deleted_once_as_stated sample.Unmarshal.
Proof.
  intros H.
  destruct (H sample.corrupt_no_receipt None "not json" _
              eq_refl sample_Unmarshal_corrupt) as (pc & acts & Hstep & Hdel).
  vm_compute in Hstep. by simplify_eq.
Qed.

Lemma drain_skips_bad_key_witness :
  url.QueryUnescape (Key (sample.record "%zz")) = inl (EscapeError "%zz") ∧
  ∀ cs acts,
    Forall uncancelled cs →
    steps (drain_step sample.Unmarshal) (DRange (Records sample.mixed)) cs
    = Some (DSelect, acts) →
    dispatched acts = [("b", "a/b.json"); ("b", "c d")].
Proof.
  split; [reflexivity|]. intros cs acts Hcs H.
  by destruct (drain_skips_bad_key sample.Unmarshal
                 [sample.record "a%2Fb.json"] (sample.record "%zz")
                 [sample.record "c+d"] _ eq_refl)
    as (_ & _ & Hrun & _); apply Hrun in H as [_ ->].
Defined.

Lemma acknowledge_first_witness :
  Body (sample.message sample.one) = Some (sample.render sample.one) ∧
  drain_step sample.Unmarshal DSelect
    (ChRecv (Some (sample.message sample.one)) (Some (ErrOpaque "timeout")))
  = Some (DSelect,
          [ADeleteMessage (sample.message sample.one);
           AError (Internal "sqs: unable to delete" (ErrOpaque "timeout"))]).
Proof.
  split; [reflexivity|].
  destruct (acknowledge_first sample.Unmarshal (sample.message sample.one)
              (Some (ErrOpaque "timeout")) _ eq_refl)
    as (pc & acts & -> & _ & _ & Hfail & _).
  by destruct (Hfail _ _ eq_refl eq_refl) as [-> ->].
Defined.

Lemma ingest_outcomes_witness :
  (∃ cs acts,
      steps (ingest_step sample.accept) (ILoad "b" "a/b.json")
            (ChLoad (inl (ErrOpaque "no such key")) :: cs) = Some (IDone, acts)) ∧
  ∀ cs acts,
    steps (ingest_step sample.accept) (ILoad "b" "a/b.json")
          (ChLoad (inl (ErrOpaque "no such key")) :: cs) = Some (IDone, acts) →
    acts = [ALoad "s3://b/a/b.json"; ACount1 "s3sqs" "s3readerror";
            AError (ErrOpaque "no such key"); ARelease 1;
            ADuration "s3sqs" "s3sqs"].
Proof.
  destruct (ingest_outcomes sample.accept "b" "a/b.json") as [Hex Hall].
  split; [apply Hex|].
  intros cs acts H.
  apply Hall in H as [(err & ? & ->)|(data & ? & ->)]; by simplify_eq.
Defined.

Lemma key_is_query_unescaped_witness :
  url.QueryUnescape (Key (sample.record "c+d%2Fe")) = inr "c d/e" ∧
  steps (drain_step sample.Unmarshal) (DRange [sample.record "c+d%2Fe"])
        [ChTau; ChAcquire true; ChTau]
  = Some (DRange [], [AAcquire 1; AGo "b" "c d/e"]) ∧
  ∃ pc acts,
    ingest_step sample.accept (ILoad "b" "c d/e") (ChLoad (inr []))
    = Some (pc, ALoad "s3://b/c d/e" :: acts).
Proof.
  split; [reflexivity|].
  destruct (key_is_query_unescaped 1 sample.Unmarshal
              (sample.record "c+d%2Fe") [] _ eq_refl)
    as (_ & _ & Hsteps & _ & Hload).
  split; [exact Hsteps|]. apply (Hload sample.accept (inr [])).
Defined.

Lemma handler_result_ignored_witness :
  erase_label <$> sample.handled sample.accept
  = erase_label <$> sample.handled sample.decline ∧
  ∃ st1 st2,
    run 1 sample.Unmarshal (NewWith 1) (sample.handled sample.accept)
    = Some st1 ∧
    run 1 sample.Unmarshal (NewWith 1) (sample.handled sample.decline)
    = Some st2 ∧
    own 1 (trace st1)
    = [ALoad "s3://b/a/b.json"; AHandler [] true; ARelease 1] ∧
    own 1 (trace st2)
    = [ALoad "s3://b/a/b.json"; AHandler [] false; ARelease 1] ∧
    threads st1 !! 1 = Some (TIngest sample.accept IDuration) ∧
    threads st2 !! 1 = Some (TIngest sample.decline IDuration) ∧
    limit st1 = limit st2 ∧
    erase st1 = erase st2.
Proof.
  split; [reflexivity|].
  destruct (run 1 sample.Unmarshal (NewWith 1) (sample.handled sample.accept))
    as [st1|] eqn:Hrun1; [|by vm_compute in Hrun1].
  destruct (run 1 sample.Unmarshal (NewWith 1) (sample.handled sample.decline))
    as [st2|] eqn:Hrun2; [|by vm_compute in Hrun2].
  exists st1, st2.
  assert (Herase : erase st1 = erase st2).
  { destruct (handler_result_ignored 1 sample.Unmarshal
                (sample.handled sample.accept) (sample.handled sample.decline)
                eq_refl) as [Heq _].
    rewrite Hrun1, Hrun2 in Heq. simpl in Heq. congruence. }
  split_and!; [reflexivity|reflexivity| | | | | |exact Herase].
  - vm_compute in Hrun1. injection Hrun1 as <-. reflexivity.
  - vm_compute in Hrun2. injection Hrun2 as <-. reflexivity.
  - vm_compute in Hrun1. injection Hrun1 as <-. reflexivity.
  - vm_compute in Hrun2. injection Hrun2 as <-. reflexivity.
  - exact (f_equal limit Herase).
Defined.

Lemma Close_before_Range_panics_witness :
  (∀ f, LRange f ∉ [LClose]) ∧
  ∃ st, run 1 sample.Unmarshal (NewWith 1) [LClose] = Some st ∧
        panicked st = false ∧
        threads st !! 0 = Some (TClose CCancel) ∧
        ∃ st', step 1 sample.Unmarshal st (LStep 0 ChTau) = Some st' ∧
               panicked st' = true.
Proof.
  assert (Hno : ∀ f, LRange f ∉ [LClose]).
  { intros f Hin. apply list_elem_of_singleton in Hin. discriminate. }
  split; [exact Hno|]. eexists. split; [reflexivity|].
  split; [reflexivity|]. split; [reflexivity|].
  destruct (Close_before_Range_panics 1 sample.Unmarshal [LClose] _ 0
              Hno eq_refl eq_refl eq_refl) as [(st' & Hstep & Hp & _) _].
  by exists st'.
Defined.

(** C5, as first written, fails on the shortest execution there is: [Close]
    alone calls a nil cancel function. *)
Lemma Close_before_Range_crash : ¬ Close_unstarted_as_stated 1 sample.Unmarshal.
Proof.
  intros H.
  assert (Hno : ∀ f, LRange f ∉ [LClose; LStep 0 ChTau]).
  { intros f Hin. apply elem_of_cons in Hin as [?|Hin]; [done|].
    apply list_elem_of_singleton in Hin. discriminate. }
  by specialize (H [LClose; LStep 0 ChTau] _ Hno eq_refl).
Qed.

Lemma Close_barrier_witness :
  (1 ≤ 1 < 2 ^ 61)%Z ∧
  ∃ st,
    run 1 sample.Unmarshal (NewWith 1) sample.closing = Some st ∧
    threads st !! 2 = Some (TClose CReturned) ∧
    cur (limit st) = 3%Z ∧
    ∀ j t, threads st !! j = Some t → holds_unit t = false.
Proof.
  assert (Hcpus : (1 ≤ 1 < 2 ^ 61)%Z) by lia.
  split; [exact Hcpus|].
  destruct (run 1 sample.Unmarshal (NewWith 1) sample.closing) as [st|] eqn:Hrun;
    [|by vm_compute in Hrun].
  assert (Hi : threads st !! 2 = Some (TClose CReturned))
    by (vm_compute in Hrun; injection Hrun as <-; reflexivity).
  exists st. split; [reflexivity|]. split; [exact Hi|].
  destruct (Close_barrier 1 sample.Unmarshal Hcpus _ _ 2 Hrun Hi)
    as [_ Hafter].
  destruct (Hafter [] st eq_refl) as (Hcur & Hunit & _).
  split; [exact Hcur|exact Hunit].
Defined.

(** C1, as first written, fails when a task has released its unit and has
    not yet recorded its duration: [Close] acquires the whole limiter and
    returns while that task is still running its last deferred call. *)
Lemma Close_barrier_task_still_running : ¬ barrier_as_stated 1 sample.Unmarshal.
Proof.
  intros H.
  destruct (run 1 sample.Unmarshal (NewWith 1) sample.closing) as [st|] eqn:Hrun;
    [|by vm_compute in Hrun].
  specialize (H _ _ 2 Hrun).
  vm_compute in Hrun. injection Hrun as <-.
  by specialize (H eq_refl 1 (TIngest sample.accept IDuration) eq_refl).
Qed.



(** ** The further properties on the sample notifications *)

Lemma key_unchanged_iff_plain_witness :
  url.QueryUnescape "k1" = inr "k1" ∧
  drain_step sample.Unmarshal (DRange [sample.record "k1"]) ChTau
  = Some (DAcquire "b" "k1" [], []).
Proof.
  destruct (key_unchanged_iff_plain sample.Unmarshal "k1") as [[_ Hkey] Hstep].
  split; [by apply Hkey|].
  exact (Hstep (sample.record "k1") [] eq_refl eq_refl).
Defined.

Lemma key_unescaped_length_witness :
  drain_step sample.Unmarshal (DRange [sample.record "a%2Fb.json"]) ChTau
  = Some (DAcquire "b" "a/b.json" [], []) ∧
  String.length "a/b.json" + 2 * percents "a%2Fb.json"
  = String.length "a%2Fb.json" ∧
  String.length "a/b.json" ≤ String.length "a%2Fb.json".
Proof.
  split; [reflexivity|].
  exact (key_unescaped_length sample.Unmarshal (sample.record "a%2Fb.json")
           [] "b" "a/b.json" [] eq_refl).
Defined.

Lemma key_unescape_concat_witness :
  url.QueryUnescape "a%2F" = inr "a/" ∧
  url.QueryUnescape "c+d" = inr "c d" ∧
  url.QueryUnescape ("a%2F" +:+ "c+d") = inr ("a/" +:+ "c d").
Proof.
  split_and!; [reflexivity|reflexivity|].
  exact (key_unescape_concat "a%2F" "a/" "c+d" "c d" eq_refl eq_refl).
Defined.

Lemma key_escape_error_witness :
  drain_step sample.Unmarshal (DRange [sample.record "a%zz"]) ChTau
  = Some (DRange [],
          [AError (Internal "sqs: unable to unescape query"
                            (EscapeError "%zz"))]) ∧
  ∃ s1 t1 tail,
    "a%zz" = s1 +:+ String "%" tail ∧ url.unescapes s1 t1 ∧ malformed tail ∧
    EscapeError "%zz" = EscapeError (url.first3 (String "%" tail)).
Proof.
  split; [reflexivity|].
  destruct (key_escape_error sample.Unmarshal (sample.record "a%zz") []
              (EscapeError "%zz")) as [Hsplit _].
  exact (Hsplit eq_refl).
Defined.

Lemma locator_injective_witness :
  slash_free "b" = true ∧ slash_free "c" = true ∧
  locator "b" "x/y" ≠ locator "c" "x/y" ∧
  locator "b" "x/y" = locator "b/x" "y".
Proof.
  split_and!; [reflexivity|reflexivity| |reflexivity].
  intros Heq.
  by destruct (locator_injective "b" "x/y" "c" "x/y" eq_refl eq_refl Heq).
Defined.

Lemma drain_range_any_schedule_witness :
  Forall loop_choice sample.interrupted ∧
  ∃ acts,
    steps (drain_step sample.Unmarshal) (DRange (Records sample.mixed))
          sample.interrupted
    = Some (DSelect, acts) ∧
    dispatched acts `sublist_of` locators (Records sample.mixed) ∧
    reported acts = key_errors (Records sample.mixed) ∧
    deletions acts = [].
Proof.
  assert (Hcs : Forall loop_choice sample.interrupted)
    by (repeat (constructor; [first [by left|by right; eexists]|]);
        constructor).
  split; [exact Hcs|].
  destruct (steps (drain_step sample.Unmarshal) (DRange (Records sample.mixed))
                  sample.interrupted) as [[pc acts]|] eqn:Hsteps;
    [|by vm_compute in Hsteps].
  assert (pc = DSelect) as -> by (vm_compute in Hsteps; congruence).
  exists acts. split; [reflexivity|].
  destruct (drain_range_any_schedule sample.Unmarshal _ _ _ Hcs Hsteps)
    as (Hsub & Hrep & Hdel & _).
  by split_and!.
Defined.

Lemma delete_only_received_witness :
  ∃ st,
    run 1 sample.Unmarshal (NewWith 1) sample.closing = Some st ∧
    length (deletions (calls st)) ≤ 1.
Proof.
  destruct (run 1 sample.Unmarshal (NewWith 1) sample.closing) as [st|] eqn:Hrun;
    [|by vm_compute in Hrun].
  exists st. split; [reflexivity|].
  by destruct (delete_only_received 1 sample.Unmarshal _ _ Hrun) as [_ Hle].
Defined.

Lemma read_errors_counted_witness :
  ∃ st,
    run 1 sample.Unmarshal (NewWith 1) sample.failed_fetch = Some st ∧
    counted (calls st) = [(ctxTag, "s3readerror")].
Proof.
  destruct (run 1 sample.Unmarshal (NewWith 1) sample.failed_fetch)
    as [st|] eqn:Hrun; [|by vm_compute in Hrun].
  exists st. split; [reflexivity|].
  exact (read_errors_counted 1 sample.Unmarshal _ _ Hrun).
Defined.

Lemma handler_provenance_witness :
  ∃ st,
    run 1 sample.Unmarshal (NewWith 1) sample.closing = Some st ∧
    (1, AHandler [] true) ∈ trace st ∧
    ∃ h, LRange h ∈ sample.closing ∧ true = h [] ∧
         LStep 1 (ChLoad (inr [])) ∈ sample.closing.
Proof.
  destruct (run 1 sample.Unmarshal (NewWith 1) sample.closing) as [st|] eqn:Hrun;
    [|by vm_compute in Hrun].
  assert (Hin : (1, AHandler [] true) ∈ trace st)
    by (vm_compute in Hrun; injection Hrun as <-; simpl; repeat constructor).
  exists st. split; [reflexivity|]. split; [exact Hin|].
  destruct (handler_provenance 1 sample.Unmarshal _ _ Hrun) as [_ Hcalls].
  exact (Hcalls _ _ _ Hin).
Defined.

Lemma load_provenance_witness :
  ∃ st,
    run 1 sample.Unmarshal (NewWith 1) sample.closing = Some st ∧
    (1, ALoad "s3://b/a/b.json") ∈ trace st ∧
    ∃ i msg del body evs ev key,
      LStep i (ChRecv (Some msg) del) ∈ sample.closing ∧
      Body msg = Some body ∧ (acknowledge msg del).2 = None ∧
      sample.Unmarshal body = inr evs ∧ ev ∈ Records evs ∧
      url.QueryUnescape (Key ev) = inr key ∧
      "s3://b/a/b.json" = locator (Name ev) key.
Proof.
  destruct (run 1 sample.Unmarshal (NewWith 1) sample.closing) as [st|] eqn:Hrun;
    [|by vm_compute in Hrun].
  assert (Hin : (1, ALoad "s3://b/a/b.json") ∈ trace st)
    by (vm_compute in Hrun; injection Hrun as <-; simpl; repeat constructor).
  exists st. split; [reflexivity|]. split; [exact Hin|].
  exact (load_provenance 1 sample.Unmarshal _ _ _ _ Hrun Hin).
Defined.

Lemma drain_returns_after_cancel_witness :
  ∃ st,
    run 1 sample.Unmarshal (NewWith 1) sample.drained = Some st ∧
    threads st !! 0 = Some (TDrain 0 sample.accept DReturned) ∧
    ctxs st !! 0 = Some true ∧
    ∃ i pc, threads st !! i = Some (TClose pc) ∧ (i, ACancel 0) ∈ trace st.
Proof.
  destruct (run 1 sample.Unmarshal (NewWith 1) sample.drained) as [st|] eqn:Hrun;
    [|by vm_compute in Hrun].
  assert (Hj : threads st !! 0 = Some (TDrain 0 sample.accept DReturned))
    by (vm_compute in Hrun; injection Hrun as <-; reflexivity).
  exists st. split; [reflexivity|]. split; [exact Hj|].
  exact (drain_returns_after_cancel 1 sample.Unmarshal _ _ _ _ _ Hrun Hj).
Defined.

Lemma earlier_Range_never_cancelled_witness :
  ∃ st st',
    run 1 sample.Unmarshal (NewWith 1) sample.ranged_twice = Some st ∧
    ctxs st !! 0 = Some false ∧ 1 < length (ctxs st) ∧
    run 1 sample.Unmarshal st sample.closed_after = Some st' ∧
    threads st' !! 1 = Some (TDrain 1 sample.decline DReturned) ∧
    ctxs st' !! 0 = Some false ∧
    ∀ j h, threads st' !! j ≠ Some (TDrain 0 h DReturned).
Proof.
  destruct (run 1 sample.Unmarshal (NewWith 1) sample.ranged_twice)
    as [st|] eqn:Hrun; [|by vm_compute in Hrun].
  assert (Hc : ctxs st !! 0 = Some false)
    by (vm_compute in Hrun; injection Hrun as <-; reflexivity).
  assert (Hlt : 1 < length (ctxs st))
    by (vm_compute in Hrun; injection Hrun as <-; simpl; lia).
  destruct (run 1 sample.Unmarshal st sample.closed_after) as [st'|] eqn:Hrun';
    [|by (vm_compute in Hrun; injection Hrun as Hst; subst st;
          vm_compute in Hrun')].
  assert (Hj : threads st' !! 1 = Some (TDrain 1 sample.decline DReturned))
    by (vm_compute in Hrun; injection Hrun as Hst; subst st;
        vm_compute in Hrun'; injection Hrun' as <-; reflexivity).
  exists st, st'. split_and!; [reflexivity|exact Hc|exact Hlt|exact Hrun'
                              |exact Hj| |].
  - by destruct (earlier_Range_never_cancelled 1 sample.Unmarshal _ _ _
                   Hrun Hc Hlt) as [_ Hlater];
      destruct (Hlater _ _ Hrun').
  - by destruct (earlier_Range_never_cancelled 1 sample.Unmarshal _ _ _
                   Hrun Hc Hlt) as [_ Hlater];
      destruct (Hlater _ _ Hrun').
Defined.

Lemma Close_returns_once_witness :
  (1 ≤ 1 < 2 ^ 61)%Z ∧
  ∃ st,
    run 1 sample.Unmarshal (NewWith 1) sample.closing = Some st ∧
    threads st !! 2 = Some (TClose CReturned) ∧
    ∀ j, threads st !! j = Some (TClose CReturned) → 2 = j.
Proof.
  assert (Hcpus : (1 ≤ 1 < 2 ^ 61)%Z) by lia.
  split; [exact Hcpus|].
  destruct (run 1 sample.Unmarshal (NewWith 1) sample.closing) as [st|] eqn:Hrun;
    [|by vm_compute in Hrun].
  assert (Hi : threads st !! 2 = Some (TClose CReturned))
    by (vm_compute in Hrun; injection Hrun as <-; reflexivity).
  exists st. split; [reflexivity|]. split; [exact Hi|].
  intros j Hj.
  exact (Close_returns_once 1 sample.Unmarshal Hcpus _ _ _ _ Hrun Hi Hj).
Defined.

Lemma tasks_accounted_witness :
  ∃ st,
    run 1 sample.Unmarshal (NewWith 1) sample.fourth_started = Some st ∧
    count in_flight st = 3%Z ∧
    length (dispatched (calls st)) = 4 ∧
    released (calls st) = [1%Z].
Proof.
  destruct (run 1 sample.Unmarshal (NewWith 1) sample.fourth_started)
    as [st|] eqn:Hrun; [|by vm_compute in Hrun].
  assert (Hfly : count in_flight st = 3%Z)
    by (vm_compute in Hrun; injection Hrun as <-; reflexivity).
  assert (Hgo : length (dispatched (calls st)) = 4)
    by (vm_compute in Hrun; injection Hrun as <-; reflexivity).
  exists st. split_and!; [reflexivity|exact Hfly|exact Hgo|].
  destruct (tasks_accounted 1 sample.Unmarshal _ _ Hrun) as (n & -> & Hsum).
  rewrite Hfly, Hgo in Hsum. by replace n with 1 by lia.
Defined.
